(** * Anki note builder of 10ten-ja-reader: a shallow embedding

    The development follows [src/content/anki-note-builder.ts] and the
    marker vocabulary of [src/common/anki-types.ts]; it also covers the
    pure parts of [src/background/audio-fetcher.ts],
    [src/background/frequency-data.ts], [src/background/anki-connect.ts],
    [src/utils/array-buffer-to-base64.ts] and the tags field of the
    settings page.  What these files take from outside (the clock, the
    network, [btoa], the digest, the kana normalization of a package, the
    text that the engine gives for a built-in function) is a parameter of
    the definitions that use it.

    - A JavaScript string is the list of its UTF-16 code units.  The
      [for (const char of s)] loops of the source iterate over code points,
      whereas [length], [indexOf] and [slice] count code units; both views
      are modelled.
    - A JavaScript object used as a dictionary ([Record<string, string>]) is
      a finite map over its own properties.  A read [o[name]] and an
      assignment [o[key] = value] with a computed name also see the
      properties that a plain object inherits from [Object.prototype]:
      they are [getProperty] and [setProperty].
    - A JavaScript number that the source only uses as an integer (an
      index, a pitch position, a rank) is an integer of [Z].
    - Definitions carry the names of the source.  Record projections are
      global names here, so the fields of the dictionary records carry the
      initial of their record ([w_k] for [word.k], [s_lang] for
      [sense.lang]), and a parameter called [reading] in the source is
      [reading0] where the field [reading] of a segment is meant too. *)

From Stdlib Require Import ZArith Ascii String DecimalString.
From stdpp Require Import gmap list.

Local Open Scope Z_scope.

(* ===================================================================== *)
(** * Part I: definitions                                                 *)
(* ===================================================================== *)

(** ** JavaScript strings *)

Abbreviation jsstring := (list Z).

(** String literals are written in UTF-8 in this file, as in the source
    file, and decoded to UTF-16 code units by [js]. *)

Fixpoint utf8_decode (bs : list Z) : list Z :=
  match bs with
  | [] => []
  | b0 :: t0 =>
    if b0 <? 0x80 then b0 :: utf8_decode t0
    else if b0 <? 0xE0 then
      match t0 with
      | b1 :: t1 =>
        Z.lor (Z.shiftl (Z.land b0 0x1F) 6) (Z.land b1 0x3F) :: utf8_decode t1
      | _ => []
      end
    else if b0 <? 0xF0 then
      match t0 with
      | b1 :: b2 :: t2 =>
        Z.lor (Z.shiftl (Z.land b0 0x0F) 12)
              (Z.lor (Z.shiftl (Z.land b1 0x3F) 6) (Z.land b2 0x3F))
          :: utf8_decode t2
      | _ => []
      end
    else
      match t0 with
      | b1 :: b2 :: b3 :: t3 =>
        Z.lor (Z.shiftl (Z.land b0 0x07) 18)
              (Z.lor (Z.shiftl (Z.land b1 0x3F) 12)
                     (Z.lor (Z.shiftl (Z.land b2 0x3F) 6) (Z.land b3 0x3F)))
          :: utf8_decode t3
      | _ => []
      end
  end.

(** [String.fromCodePoint]: one code unit in the basic plane, a surrogate
    pair above it. *)
Definition fromCodePoint (cp : Z) : jsstring :=
  if cp <? 0x10000 then [cp]
  else [0xD800 + Z.shiftr (cp - 0x10000) 10;
        0xDC00 + Z.land (cp - 0x10000) 0x3FF].

Definition js (s : string) : jsstring :=
  flat_map fromCodePoint
    (utf8_decode (map (fun a => Z.of_nat (nat_of_ascii a)) (list_ascii_of_string s))).

(** [a === b] on strings. *)
Fixpoint jseq (a b : jsstring) : bool :=
  match a, b with
  | [], [] => true
  | x :: a', y :: b' => (x =? y) && jseq a' b'
  | _, _ => false
  end.

(** Truthiness of a string: the empty string is falsy. *)
Definition truthy (s : jsstring) : bool :=
  match s with [] => false | _ :: _ => true end.

(** [s.length]. *)
Definition jslen (s : jsstring) : Z := Z.of_nat (length s).

Definition isHighSurrogate (u : Z) : bool := (0xD800 <=? u) && (u <=? 0xDBFF).
Definition isLowSurrogate (u : Z) : bool := (0xDC00 <=? u) && (u <=? 0xDFFF).

(** The string iterator behind [for (const char of s)]: a well-formed
    surrogate pair is one character, every other code unit is one. *)
Fixpoint chars (s : jsstring) : list jsstring :=
  match s with
  | [] => []
  | h :: t =>
    match t with
    | l :: t' =>
      if isHighSurrogate h && isLowSurrogate l then [h; l] :: chars t'
      else [h] :: chars t
    | [] => [[h]]
    end
  end.

(** [s.codePointAt(0)], [undefined] on the empty string. *)
Definition codePointAt0 (s : jsstring) : option Z :=
  match s with
  | [] => None
  | [h] => Some h
  | h :: l :: _ =>
    if isHighSurrogate h && isLowSurrogate l
    then Some (0x10000 + (h - 0xD800) * 0x400 + (l - 0xDC00))
    else Some h
  end.

(** [needle] occurs at the head of [hay]. *)
Fixpoint startsWith (needle hay : jsstring) : bool :=
  match needle, hay with
  | [], _ => true
  | x :: n', y :: h' => (x =? y) && startsWith n' h'
  | _ :: _, [] => false
  end.

(** Search of [needle] in [hay], whose first code unit has index [k]. *)
Fixpoint indexOfFrom (needle hay : jsstring) (k : Z) : Z :=
  match hay with
  | [] => if startsWith needle [] then k else -1
  | _ :: rest =>
    if startsWith needle hay then k else indexOfFrom needle rest (k + 1)
  end.

Definition clamp (lo hi x : Z) : Z := Z.max lo (Z.min hi x).

(** [s.indexOf(needle, position)]: the position is clamped to the string,
    the result is the least index of an occurrence, or [-1]. *)
Definition indexOf (s needle : jsstring) (position : Z) : Z :=
  let p := clamp 0 (jslen s) position in
  indexOfFrom needle (drop (Z.to_nat p) s) p.

(** A relative index of [slice]: negative indices count from the end. *)
Definition sliceIndex (len i : Z) : Z :=
  if i <? 0 then Z.max (len + i) 0 else Z.min i len.

(** [s.slice(start, end)] and [s.slice(start)]. *)
Definition slice (s : jsstring) (start stop : Z) : jsstring :=
  let from := sliceIndex (jslen s) start in
  let to := sliceIndex (jslen s) stop in
  take (Z.to_nat (to - from)) (drop (Z.to_nat from) s).

Definition sliceFrom (s : jsstring) (start : Z) : jsstring :=
  slice s start (jslen s).

(** [parts.join(sep)]. *)
Fixpoint join (sep : jsstring) (parts : list jsstring) : jsstring :=
  match parts with
  | [] => []
  | [p] => p
  | p :: rest => p ++ sep ++ join sep rest
  end.

(** [String(n)] for an integer [n]. *)
Definition String_of_Z (n : Z) : jsstring :=
  js (NilZero.string_of_int (Z.to_int n)).

Definition newline : jsstring := [0x0A].
Definition dquote : jsstring := [0x22].

(** [x ?? ''] *)
Definition orEmpty (x : option jsstring) : jsstring := default [] x.

(** An object literal, then assignments [o[k] = v]: later keys win. *)
Definition obj (props : list (jsstring * jsstring)) : gmap (list Z) (list Z) :=
  foldl (fun o kv => <[kv.1 := kv.2]> o) ∅ props.

(** [arr.includes(x)] on an array of strings. *)
Definition includes (arr : list jsstring) (x : jsstring) : bool :=
  existsb (jseq x) arr.

(** ** Plain objects and [Object.prototype]

    The marker map and the field map are plain objects: what they do not
    have as an own property they inherit from [Object.prototype], whose
    properties are eleven built-in functions and the accessor
    [__proto__]. *)

Definition OBJECT_PROTOTYPE_FUNCTIONS : list jsstring :=
  [ js "constructor"; js "hasOwnProperty"; js "isPrototypeOf";
    js "propertyIsEnumerable"; js "toLocaleString"; js "toString";
    js "valueOf"; js "__defineGetter__"; js "__defineSetter__";
    js "__lookupGetter__"; js "__lookupSetter__" ].

(** What a read [o[name]] gives on a plain object whose own properties are
    strings. *)
Inductive PropertyValue :=
| OwnString (value : jsstring)
| InheritedFunction (name : jsstring)
| ObjectPrototype
| Undefined.

(** [o[name]]: the own property, else the property of that name of
    [Object.prototype] (the getter of [__proto__] returns the prototype of
    [o], which is [Object.prototype] itself), else [undefined]. *)
Definition getProperty (o : gmap (list Z) (list Z)) (name : jsstring)
  : PropertyValue :=
  match o !! name with
  | Some value => OwnString value
  | None =>
    if jseq name (js "__proto__") then ObjectPrototype
    else if includes OBJECT_PROTOTYPE_FUNCTIONS name then InheritedFunction name
    else Undefined
  end.

(** [o[key] = value] for a string [value]: an own property is updated;
    without one, the key [__proto__] reaches the setter inherited from
    [Object.prototype], which ignores a value that is neither an object nor
    [null]; every other key becomes an own property (the inherited
    functions are writable data properties, so they are shadowed). *)
Definition setProperty (o : gmap (list Z) (list Z)) (key value : jsstring)
  : gmap (list Z) (list Z) :=
  match o !! key with
  | Some _ => <[key := value]> o
  | None => if jseq key (js "__proto__") then o else <[key := value]> o
  end.

(** [Array.from(new Set(arr))]: first occurrences, in insertion order. *)
Definition uniq (arr : list jsstring) : list jsstring :=
  foldl (fun seen x => if includes seen x then seen else seen ++ [x]) [] arr.

(** ** Furigana generation *)

Record FuriganaSegment := { text : jsstring; reading : jsstring }.

Definition isKanaChar (char : jsstring) : bool :=
  match codePointAt0 char with
  | Some code =>
    ((0x3040 <=? code) && (code <=? 0x309f))
    || ((0x30a0 <=? code) && (code <=? 0x30ff))
  | None => false
  end.

Definition isAllKana (text : jsstring) : bool :=
  forallb isKanaChar (chars text) && (0 <? jslen text).

Definition katakanaToHiraganaChar (char : jsstring) : jsstring :=
  match codePointAt0 char with
  | Some code =>
    if (0x30a1 <=? code) && (code <=? 0x30f6)
    then fromCodePoint (code - 0x60)
    else char
  | None => char
  end.

Definition katakanaToHiragana (text : jsstring) : jsstring :=
  foldl (fun result char => result ++ katakanaToHiraganaChar char) [] (chars text).

(** A maximal run of kana or of other characters of the expression. *)
Record Group := { gtext : jsstring; isKana : bool }.

(** The state of the grouping loop: [groups], [currentGroup] and
    [currentIsKana], which is [null] before the first character. *)
Record GroupState := {
  groups : list Group;
  currentGroup : jsstring;
  currentIsKana : option bool
}.

(** [groups.push({ text: currentGroup, isKana: currentIsKana! })], guarded
    by [if (currentGroup)].  A [null] flag would be read as falsy by the
    later test [if (group.isKana)]. *)
Definition pushCurrent (st : GroupState) : list Group :=
  if truthy (currentGroup st)
  then groups st ++ [{| gtext := currentGroup st;
                        isKana := default false (currentIsKana st) |}]
  else groups st.

Definition groupStep (st : GroupState) (char : jsstring) : GroupState :=
  let charIsKana := isKanaChar char in
  if bool_decide (Some charIsKana = currentIsKana st) then
    {| groups := groups st;
       currentGroup := currentGroup st ++ char;
       currentIsKana := currentIsKana st |}
  else
    {| groups := pushCurrent st;
       currentGroup := char;
       currentIsKana := Some charIsKana |}.

Definition splitGroups (expression : jsstring) : list Group :=
  pushCurrent
    (foldl groupStep
       {| groups := []; currentGroup := []; currentIsKana := None |}
       (chars expression)).

(** [seg.reading = r] on the object held at index [i] of the array. *)
Definition setReading (i : nat) (r : jsstring) (segments : list FuriganaSegment)
  : list FuriganaSegment :=
  alter (fun seg => {| text := text seg; reading := r |}) i segments.

(** One iteration of the matching loop on [(segments, readingPos)];
    [None] is the early [return] of the fallback. *)
Definition walkStep (reading0 readingNorm : jsstring)
    (st : list FuriganaSegment * Z) (group : Group)
  : option (list FuriganaSegment * Z) :=
  let '(segments, readingPos) := st in
  if isKana group then
    let kanaToFind := katakanaToHiragana (gtext group) in
    let foundIdx := indexOf readingNorm kanaToFind readingPos in
    if 0 <=? foundIdx then
      let segments1 :=
        if (readingPos <? foundIdx) && (0 <? Z.of_nat (length segments)) then
          match last segments with
          | Some lastSeg =>
            if truthy (reading lastSeg) || negb (truthy (reading lastSeg))
            then setReading (length segments - 1)
                            (slice reading0 readingPos foundIdx) segments
            else segments
          | None => segments
          end
        else if readingPos <? foundIdx then
          segments ++ [{| text := slice reading0 readingPos foundIdx;
                          reading := [] |}]
        else segments in
      Some (segments1 ++ [{| text := gtext group; reading := [] |}],
            foundIdx + jslen kanaToFind)
    else None
  else
    Some (segments ++ [{| text := gtext group; reading := [] |}], readingPos).

Fixpoint walk (reading0 readingNorm : jsstring) (gs : list Group)
    (st : list FuriganaSegment * Z) : option (list FuriganaSegment * Z) :=
  match gs with
  | [] => Some st
  | group :: rest =>
    match walkStep reading0 readingNorm st group with
    | Some st' => walk reading0 readingNorm rest st'
    | None => None
    end
  end.

(** Index of the object found by
    [[...segments].reverse().find((s) => !isAllKana(s.text))]. *)
Fixpoint findLastKanji (segments : list FuriganaSegment) : option nat :=
  match segments with
  | [] => None
  | seg :: rest =>
    match findLastKanji rest with
    | Some i => Some (S i)
    | None => if negb (isAllKana (text seg)) then Some O else None
    end
  end.

Definition distributeFurigana (expression reading0 : jsstring)
  : list FuriganaSegment :=
  if jseq reading0 expression || negb (truthy reading0) then
    [{| text := expression; reading := [] |}]
  else if isAllKana expression then
    [{| text := expression; reading := [] |}]
  else
    let gs := splitGroups expression in
    if (length gs =? 1)%nat then
      [{| text := expression; reading := reading0 |}]
    else
      match walk reading0 (katakanaToHiragana reading0) gs ([], 0) with
      | None => [{| text := expression; reading := reading0 |}]
      | Some (segments, readingPos) =>
        if readingPos <? jslen reading0 then
          match findLastKanji segments with
          | Some i => setReading i (sliceFrom reading0 readingPos) segments
          | None => segments
          end
        else segments
      end.

Definition buildFuriganaPlain (expression reading0 : jsstring) : jsstring :=
  if negb (truthy reading0) || jseq reading0 expression then expression
  else
    join (js " ")
      (map (fun seg =>
              if truthy (reading seg)
              then text seg ++ js "[" ++ reading seg ++ js "]"
              else text seg)
           (distributeFurigana expression reading0)).

Definition buildFuriganaHtml (expression reading0 : jsstring) : jsstring :=
  if negb (truthy reading0) || jseq reading0 expression then expression
  else
    join []
      (map (fun seg =>
              if truthy (reading seg)
              then js "<ruby>" ++ text seg ++ js "<rt>" ++ reading seg
                   ++ js "</rt></ruby>"
              else text seg)
           (distributeFurigana expression reading0)).

(** ** Pitch accent helpers *)

Definition smallKana : list jsstring :=
  [js "ゃ"; js "ゅ"; js "ょ"; js "ぁ"; js "ぃ"; js "ぅ"; js "ぇ"; js "ぉ";
   js "ャ"; js "ュ"; js "ョ"; js "ァ"; js "ィ"; js "ゥ"; js "ェ"; js "ォ"].

Definition countMorae (reading0 : jsstring) : Z :=
  foldl (fun count char => if negb (includes smallKana char) then count + 1 else count)
        0 (chars reading0).

Definition getPitchCategory (reading0 : jsstring) (position : Z) : jsstring :=
  let moraCount := countMorae reading0 in
  if position =? 0 then js "heiban"
  else if position =? 1 then js "atamadaka"
  else if position =? moraCount then js "odaka"
  else js "nakadaka".

(** ** Glossary / sense serialization *)

(** A gloss [{ str, type? }] and a sense [{ g, pos?, field?, misc?, inf?, lang? }]
    of [search-result.ts]; the projections carry the record's initial. *)
Record Gloss := { g_str : jsstring; g_type : option jsstring }.

Record Sense := {
  s_g : list Gloss;
  s_pos : option (list jsstring);
  s_field : option (list jsstring);
  s_misc : option (list jsstring);
  s_inf : option jsstring;
  s_lang : option jsstring
}.

Definition glossesToStr (sense : Sense) : jsstring :=
  join (js "; ")
    (map (fun gl =>
            if bool_decide (g_type gl = Some (js "tm"))
            then g_str gl ++ js "™" else g_str gl)
         (s_g sense)).

(** [arr?.length] as a condition: the array is present and not empty. *)
Definition nonEmpty (arr : option (list jsstring)) : bool :=
  match arr with Some (_ :: _) => true | _ => false end.

Definition serializeSingleSenseFull (sense : Sense) : jsstring :=
  let parts0 : list jsstring := [] in
  let parts1 :=
    if nonEmpty (s_pos sense)
    then parts0 ++ [js "<i>(" ++ join (js ", ") (default [] (s_pos sense)) ++ js ")</i>"]
    else parts0 in
  let parts2 :=
    if nonEmpty (s_field sense)
    then parts1 ++ [js "(" ++ join (js ", ") (default [] (s_field sense)) ++ js ")"]
    else parts1 in
  let parts3 :=
    if nonEmpty (s_misc sense)
    then parts2 ++ [js "(" ++ join (js ", ") (default [] (s_misc sense)) ++ js ")"]
    else parts2 in
  let parts4 := parts3 ++ [glossesToStr sense] in
  let parts5 :=
    match s_inf sense with
    | Some note => if truthy note then parts4 ++ [js "(" ++ note ++ js ")"] else parts4
    | None => parts4
    end in
  join (js " ") parts5.

Definition serializeSingleSenseBrief (sense : Sense) : jsstring :=
  glossesToStr sense.

(** [sense.lang && sense.lang !== 'en'] *)
Definition isNative (sense : Sense) : bool :=
  match s_lang sense with
  | Some l => truthy l && negb (jseq l (js "en"))
  | None => false
  end.

Definition senseText (brief : bool) (sense : Sense) : jsstring :=
  if brief then serializeSingleSenseBrief sense
  else serializeSingleSenseFull sense.

(** One iteration of the loop of [serializeSensesHtml] on
    [(parts, enIndex)]. *)
Definition htmlStep (brief : bool) (st : list jsstring * Z) (sense : Sense)
  : list jsstring * Z :=
  let '(parts, enIndex) := st in
  let prefix :=
    if isNative sense then js "• "
    else js "(" ++ String_of_Z enIndex ++ js ") " in
  let enIndex' := if isNative sense then enIndex else enIndex + 1 in
  (parts ++ [prefix ++ senseText brief sense], enIndex').

Definition serializeSensesHtml (senses : list Sense) (brief : bool) : jsstring :=
  match senses with
  | [] => []
  | [sense] => senseText brief sense
  | _ => join (js "<br>") (fst (foldl (htmlStep brief) ([], 1) senses))
  end.

Definition serializeSensesPlain (senses : list Sense) : jsstring :=
  match senses with
  | [] => []
  | _ =>
    join newline
      (imap (fun i sense =>
               (if (1 <? Z.of_nat (length senses))
                then js "(" ++ String_of_Z (Z.of_nat i + 1) ++ js ") "
                else [])
               ++ glossesToStr sense)
            senses)
  end.

(** ** Template rendering *)

(** [\w] without the unicode and ignore-case flags: [A-Za-z0-9_]. *)
Definition isWordChar (u : Z) : bool :=
  ((0x30 <=? u) && (u <=? 0x39)) || ((0x41 <=? u) && (u <=? 0x5A))
  || (u =? 0x5F) || ((0x61 <=? u) && (u <=? 0x7A)).

(** [[\w-]] *)
Definition isNameChar (u : Z) : bool := isWordChar u || (u =? 0x2D).

(** The longest prefix matched by the greedy run of [\w] or hyphen. *)
Fixpoint nameRun (t : jsstring) : jsstring :=
  match t with
  | u :: rest => if isNameChar u then u :: nameRun rest else []
  | [] => []
  end.

(** A match of the marker pattern (an opening brace, one [\w], a greedy
    run of [\w] or hyphen, a closing brace) at the head of [t]: the captured
    marker name and the number of code units matched.  The closing brace
    is not a name character, so backtracking the greedy run cannot find a
    match that the longest run misses. *)
Definition matchMarker (t : jsstring) : option (jsstring * nat) :=
  match t with
  | open :: first :: rest =>
    if (open =? 0x7B) && isWordChar first then
      let run := nameRun rest in
      match drop (length run) rest with
      | close :: _ =>
        if close =? 0x7D then Some (first :: run, (3 + length run)%nat) else None
      | [] => None
      end
    else None
  | _ => None
  end.

(** [template.replace(regex /g, replacer)]: matches are searched from left
    to right and do not overlap; after a match the search resumes behind
    it ([skip] code units of the match are still to be passed over); the
    result of the replacer is inserted as it is. *)
Fixpoint replaceMarkers (replacer : jsstring -> jsstring) (skip : nat)
    (t : jsstring) : jsstring :=
  match t with
  | [] => []
  | u :: rest =>
    match skip with
    | S k => replaceMarkers replacer k rest
    | O =>
      match matchMarker t with
      | Some (markerName, len) =>
        replacer markerName ++ replaceMarkers replacer (len - 1) rest
      | None => u :: replaceMarkers replacer 0 rest
      end
    end
  end.

Section Rendering.

(** The text that the engine gives for a built-in function inherited under
    a name ([String(Object.prototype[name])]); the standard leaves its
    layout to the implementation. *)
Variable nativeFunctionText : jsstring -> jsstring.

(** [v ?? ''] as returned by the replacer, and the conversion to a string
    that [replace] applies to what the replacer returns. *)
Definition replacementText (v : PropertyValue) : jsstring :=
  match v with
  | OwnString value => value
  | InheritedFunction name => nativeFunctionText name
  | ObjectPrototype => js "[object Object]"
  | Undefined => []
  end.

Definition renderFieldTemplate (template : jsstring)
    (markerValues : gmap (list Z) (list Z)) : jsstring :=
  replaceMarkers
    (fun markerName => replacementText (getProperty markerValues markerName))
    0 template.

End Rendering.

(** ** Dictionary entries *)

(** A kanji headword [{ ent, i? }] and a reading [{ ent, i?, romaji?, a? }]
    of a word; [a] is read dynamically as a number or an array of
    [{ i: number }]. *)
Record KanjiHeadword := { k_ent : jsstring; k_i : option (list jsstring) }.

Inductive Accent :=
| AccentNumber (n : Z)
| AccentArray (accents : list Z)
| AccentOther.

Record Reading := {
  r_ent : jsstring;
  r_i : option (list jsstring);
  r_romaji : option jsstring;
  r_a : Accent
}.

Record WordResult := {
  w_k : option (list KanjiHeadword);
  w_r : list Reading;
  w_s : list Sense;
  w_reasonChains : option (list (list Z));
  w_frequencyRank : option Z
}.

(** [{ c, r: { on?, kun? }, m, misc?: { sc } }] *)
Record KanjiResult := {
  kj_c : jsstring;
  kj_on : option (list jsstring);
  kj_kun : option (list jsstring);
  kj_m : list jsstring;
  kj_sc : option Z
}.

Record NameTranslation := {
  tr_type : option (list jsstring);
  tr_det : list jsstring
}.

Record NameResult := {
  n_k : option (list jsstring);
  n_r : list jsstring;
  n_tr : list NameTranslation
}.

Inductive CopyEntry :=
| word (data : WordResult)
| kanji (data : KanjiResult)
| name (data : NameResult).

Record AnkiNoteContext := {
  url : option jsstring;
  documentTitle : option jsstring;
  sentence : option jsstring
}.

(** [context?.f ?? ''] *)
Definition ctxField (f : AnkiNoteContext -> option jsstring)
    (context : option AnkiNoteContext) : jsstring :=
  orEmpty (context ≫= f).

(** [s.replace(pattern, replacement)] with a string pattern: the first
    occurrence only. *)
Definition replaceFirst (s pattern replacement : jsstring) : jsstring :=
  let i := indexOf s pattern 0 in
  if i <? 0 then s
  else slice s 0 i ++ replacement ++ sliceFrom s (i + jslen pattern).

(** [s.replace(/_/g, ' ')] *)
Definition underscoresToSpaces (s : jsstring) : jsstring :=
  map (fun u => if u =? 0x5F then 0x20 else u) s.

(** ** Settings and notes ([anki-types.ts]) *)

Inductive DuplicateScope := collection | deck | deck_root.

Record AnkiSettings := {
  enabled : bool;
  server : jsstring;
  apiKey : jsstring;
  deckName : jsstring;
  modelName : jsstring;
  tags : list jsstring;
  fieldTemplates : gmap (list Z) (list Z);
  duplicateScope : DuplicateScope;
  checkForDuplicates : bool
}.

Record DuplicateScopeOptions := {
  scope_deckName : option jsstring;
  checkChildren : option bool;
  checkAllModels : option bool
}.

Record NoteOptions := {
  allowDuplicate : bool;
  opt_duplicateScope : option DuplicateScope;
  duplicateScopeOptions : option DuplicateScopeOptions
}.

Record AnkiNote := {
  note_deckName : jsstring;
  note_modelName : jsstring;
  note_fields : gmap (list Z) (list Z);
  note_tags : list jsstring;
  note_options : option NoteOptions
}.

Definition ANKI_FIELD_MARKERS : list jsstring :=
  [ (* Core *)
    js "expression"; js "reading"; js "reading-romaji"; js "furigana";
    js "furigana-plain";
    (* Glossary variants *)
    js "glossary"; js "glossary-brief"; js "glossary-plain";
    js "glossary-no-dictionary"; js "glossary-plain-no-dictionary";
    js "glossary-first"; js "glossary-first-brief";
    js "glossary-first-no-dictionary"; js "definition";
    (* Grammar *)
    js "part-of-speech"; js "tags-pos"; js "tags"; js "conjugation";
    (* Pitch accent *)
    js "pitch-accent-positions"; js "pitch-accent-categories";
    js "pitch-accents"; js "pitch-accent-graphs"; js "pitch-accent-graphs-jj";
    (* Context *)
    js "sentence"; js "sentence-furigana"; js "sentence-furigana-plain";
    js "url"; js "document-title"; js "search-query";
    (* Cloze *)
    js "cloze-body"; js "cloze-body-kana"; js "cloze-prefix"; js "cloze-suffix";
    (* Media *)
    js "audio"; js "screenshot"; js "clipboard-image"; js "clipboard-text";
    js "popup-selection-text";
    (* Frequency *)
    js "frequencies"; js "frequency-harmonic-rank";
    js "frequency-harmonic-occurrence"; js "frequency-average-rank";
    js "frequency-average-occurrence";
    (* Phonetic *)
    js "phonetic-transcriptions";
    (* Dictionary info *)
    js "dictionary"; js "dictionary-alias";
    (* Kanji-specific *)
    js "character"; js "onyomi"; js "kunyomi"; js "stroke-count" ].

(** ** Marker value builder *)

Section Builder.

(** The table [deinflectL10NKeys] of [background/deinflect.ts], from a
    deinflection reason to its localisation key; [None] is a missing key. *)
Variable deinflectL10NKeys : Z -> option jsstring.

(** [!x.i?.includes(flag)] *)
Definition notFlagged (flag : jsstring) (i : option (list jsstring)) : bool :=
  negb (match i with Some l => includes l flag | None => false end).

(** The pitch loop on [(pitchPositions, pitchCategories)]. *)
Definition pitchStep (st : list jsstring * list jsstring) (r : Reading)
  : list jsstring * list jsstring :=
  match r_a r with
  | AccentNumber accentValue =>
    (st.1 ++ [String_of_Z accentValue],
     st.2 ++ [getPitchCategory (r_ent r) accentValue])
  | AccentArray accentValue =>
    foldl (fun st' accent =>
             (st'.1 ++ [String_of_Z accent],
              st'.2 ++ [getPitchCategory (r_ent r) accent]))
          st accentValue
  | AccentOther => st
  end.

Definition reasonLabel (r : Z) : jsstring :=
  match deinflectL10NKeys r with
  | Some key =>
    if truthy key
    then underscoresToSpaces (replaceFirst key (js "deinflect_") [])
    else String_of_Z r
  | None => String_of_Z r
  end.

Definition buildWordMarkers (w : WordResult) (context : option AnkiNoteContext)
  : gmap (list Z) (list Z) :=
  (* Expression / Reading *)
  let kanjiHeadwords :=
    match w_k w with
    | Some ks => filter (fun k => notFlagged (js "sK") (k_i k) = true) ks
    | None => []
    end in
  let expression :=
    match kanjiHeadwords with
    | k0 :: _ => k_ent k0
    | [] => orEmpty (r_ent <$> head (w_r w))
    end in
  let readings := filter (fun r => notFlagged (js "sk") (r_i r) = true) (w_r w) in
  let reading0 := orEmpty (r_ent <$> head readings) in
  let readingRomaji :=
    join (js ", ") (map (fun r => orEmpty (r_romaji r)) readings) in
  (* Furigana *)
  let furiganaPlain := buildFuriganaPlain expression reading0 in
  let furiganaHtml := buildFuriganaHtml expression reading0 in
  (* Glossary / Definition *)
  let glossaryFull := serializeSensesHtml (w_s w) false in
  let glossaryBrief := serializeSensesHtml (w_s w) true in
  let glossaryPlain := serializeSensesPlain (w_s w) in
  let glossaryFirstBrief :=
    match w_s w with s0 :: _ => serializeSingleSenseBrief s0 | [] => [] end in
  let glossaryFirstFull :=
    match w_s w with s0 :: _ => serializeSingleSenseFull s0 | [] => [] end in
  (* Part of speech *)
  let partOfSpeech :=
    join (js ", ")
      (uniq (flat_map (fun sense => default [] (s_pos sense)) (w_s w))) in
  (* Pitch accent *)
  let pitch := foldl pitchStep ([], []) readings in
  let pitchPositions := pitch.1 in
  let pitchCategories := pitch.2 in
  (* Conjugation / Reason *)
  let conjugation :=
    match w_reasonChains w with
    | Some (c0 :: cs) =>
      join (js ", ")
        (map (fun chain => join (js " « ") (map reasonLabel chain)) (c0 :: cs))
    | _ => []
    end in
  (* Tags *)
  let tagList :=
    flat_map (fun sense =>
                default [] (s_pos sense) ++ default [] (s_misc sense)
                ++ default [] (s_field sense))
             (w_s w) in
  let tagsStr := join (js ", ") (uniq tagList) in
  let rankStr :=
    match w_frequencyRank w with Some rank => String_of_Z rank | None => [] end in
  obj [
    (* Yomitan-compatible markers *)
    (js "expression", expression);
    (js "reading", reading0);
    (js "furigana", furiganaHtml);
    (js "furigana-plain", furiganaPlain);
    (js "glossary", glossaryFull);
    (js "glossary-brief", glossaryBrief);
    (js "glossary-no-dictionary", glossaryBrief);
    (js "glossary-plain", glossaryPlain);
    (js "glossary-plain-no-dictionary", glossaryPlain);
    (js "glossary-first", glossaryFirstFull);
    (js "glossary-first-brief", glossaryFirstBrief);
    (js "glossary-first-no-dictionary", glossaryFirstBrief);
    (js "part-of-speech", partOfSpeech);
    (js "conjugation", conjugation);
    (js "pitch-accent-positions", join (js ", ") pitchPositions);
    (js "pitch-accent-categories", join (js ", ") pitchCategories);
    (js "pitch-accents", join (js ", ") pitchPositions);
    (js "sentence", ctxField sentence context);
    (js "url", ctxField url context);
    (js "document-title", ctxField documentTitle context);
    (js "search-query", expression);
    (js "tags", tagsStr);
    (* Media markers *)
    (js "audio", []);
    (js "screenshot", []);
    (js "clipboard-image", []);
    (js "clipboard-text", []);
    (js "popup-selection-text", []);
    (js "sentence-furigana", []);
    (js "sentence-furigana-plain", []);
    (* Frequency markers *)
    (js "frequencies",
     match w_frequencyRank w with
     | Some rank =>
       js "<ul style=" ++ dquote ++ js "text-align: left;" ++ dquote
       ++ js "><li>Global: " ++ String_of_Z rank ++ js "</li></ul>"
     | None => []
     end);
    (js "frequency-harmonic-rank", rankStr);
    (js "frequency-harmonic-occurrence", []);
    (js "frequency-average-rank", rankStr);
    (js "frequency-average-occurrence", []);
    (* Cloze markers *)
    (js "cloze-body", expression);
    (js "cloze-body-kana", reading0);
    (js "cloze-prefix", []);
    (js "cloze-suffix", []);
    (* Phonetic *)
    (js "phonetic-transcriptions", []);
    (* Pitch accent graphs *)
    (js "pitch-accent-graphs", []);
    (js "pitch-accent-graphs-jj", []);
    (* Dictionary info *)
    (js "dictionary", []);
    (js "dictionary-alias", []);
    (* 10ten-native markers *)
    (js "reading-romaji", readingRomaji);
    (js "definition", glossaryBrief);
    (js "tags-pos", partOfSpeech)
  ].

Definition buildKanjiMarkers (kj : KanjiResult) (context : option AnkiNoteContext)
  : gmap (list Z) (list Z) :=
  let onReadings := default [] (kj_on kj) in
  let kunReadings := default [] (kj_kun kj) in
  let allReadings := join (js "、") (onReadings ++ kunReadings) in
  let meanings := join (js ", ") (kj_m kj) in
  obj [
    (js "expression", kj_c kj);
    (js "character", kj_c kj);
    (js "reading", allReadings);
    (js "onyomi", join (js "、") onReadings);
    (js "kunyomi", join (js "、") kunReadings);
    (js "glossary", meanings);
    (js "glossary-brief", meanings);
    (js "glossary-plain", meanings);
    (js "glossary-first", orEmpty (head (kj_m kj)));
    (js "glossary-first-brief", orEmpty (head (kj_m kj)));
    (js "definition", meanings);
    (js "stroke-count",
     match kj_sc kj with
     | Some sc => if sc =? 0 then [] else String_of_Z sc
     | None => []
     end);
    (js "url", ctxField url context);
    (js "document-title", ctxField documentTitle context);
    (js "sentence", ctxField sentence context);
    (js "furigana", kj_c kj);
    (js "furigana-plain", kj_c kj);
    (js "tags", []);
    (js "tags-pos", []);
    (js "part-of-speech", []);
    (js "reading-romaji", []);
    (js "audio", []);
    (js "popup-selection-text", []);
    (js "pitch-accent-positions", []);
    (js "pitch-accent-categories", []);
    (js "pitch-accents", []);
    (js "frequencies", []);
    (js "frequency-harmonic-rank", []);
    (js "frequency-harmonic-occurrence", []);
    (js "frequency-average-rank", []);
    (js "frequency-average-occurrence", []);
    (js "conjugation", []);
    (js "search-query", kj_c kj)
  ].

Definition buildNameMarkers (nm : NameResult) (context : option AnkiNoteContext)
  : gmap (list Z) (list Z) :=
  let expression :=
    match n_k nm with
    | Some ks => join (js "、") ks
    | None => join (js "、") (n_r nm)
    end in
  let reading0 := join (js "、") (n_r nm) in
  let definitions :=
    map (fun tr =>
           let parts :=
             (if nonEmpty (tr_type tr)
              then [js "(" ++ join (js ", ") (default [] (tr_type tr)) ++ js ")"]
              else [])
             ++ [join (js ", ") (tr_det tr)] in
           join (js " ") parts)
        (n_tr nm) in
  let definition := join (js "; ") definitions in
  let primaryExpr :=
    match n_k nm ≫= head with
    | Some k0 => k0
    | None => orEmpty (head (n_r nm))
    end in
  let primaryReading := orEmpty (head (n_r nm)) in
  obj [
    (js "expression", expression);
    (js "reading", reading0);
    (js "glossary", definition);
    (js "glossary-brief", definition);
    (js "glossary-plain", definition);
    (js "glossary-first", orEmpty (head definitions));
    (js "glossary-first-brief", orEmpty (head definitions));
    (js "definition", definition);
    (js "furigana", buildFuriganaPlain primaryExpr primaryReading);
    (js "furigana-plain", buildFuriganaPlain primaryExpr primaryReading);
    (js "url", ctxField url context);
    (js "document-title", ctxField documentTitle context);
    (js "sentence", ctxField sentence context);
    (js "tags", []);
    (js "tags-pos", []);
    (js "part-of-speech", []);
    (js "reading-romaji", []);
    (js "audio", []);
    (js "popup-selection-text", []);
    (js "pitch-accent-positions", []);
    (js "pitch-accent-categories", []);
    (js "pitch-accents", []);
    (js "frequencies", []);
    (js "frequency-harmonic-rank", []);
    (js "frequency-harmonic-occurrence", []);
    (js "frequency-average-rank", []);
    (js "frequency-average-occurrence", []);
    (js "conjugation", []);
    (js "search-query", expression)
  ].

Definition buildMarkerValues (entry : CopyEntry) (context : option AnkiNoteContext)
  : gmap (list Z) (list Z) :=
  match entry with
  | word data => buildWordMarkers data context
  | kanji data => buildKanjiMarkers data context
  | name data => buildNameMarkers data context
  end.

(** ** Note assembly *)

(** The text of an inherited built-in function, as in the renderer. *)
Variable nativeFunctionText : jsstring -> jsstring.

(** [for (const [key, value] of Object.entries(markerOverrides))
      markerValues[key] = value] *)
Definition applyOverrides (markerValues : gmap (list Z) (list Z))
    (markerOverrides : option (gmap (list Z) (list Z))) : gmap (list Z) (list Z) :=
  match markerOverrides with
  | Some overrides =>
    foldl (fun mv kv => setProperty mv kv.1 kv.2) markerValues
          (map_to_list overrides)
  | None => markerValues
  end.

(** [for (const [fieldName, template] of Object.entries(fieldTemplates))
      fields[fieldName] = renderFieldTemplate(template, markerValues)],
    on [fields = {}] *)
Definition renderFields (templates markerValues : gmap (list Z) (list Z))
  : gmap (list Z) (list Z) :=
  foldl (fun fields ft =>
           setProperty fields ft.1
             (renderFieldTemplate nativeFunctionText ft.2 markerValues))
        ∅ (map_to_list templates).

Definition buildAnkiNote (entry : CopyEntry) (settings : AnkiSettings)
    (context : option AnkiNoteContext)
    (markerOverrides : option (gmap (list Z) (list Z))) : AnkiNote :=
  let markerValues :=
    applyOverrides (buildMarkerValues entry context) markerOverrides in
  let fields := renderFields (fieldTemplates settings) markerValues in
  {| note_deckName := deckName settings;
     note_modelName := modelName settings;
     note_fields := fields;
     note_tags := tags settings;
     note_options := Some {|
       allowDuplicate := negb (checkForDuplicates settings);
       opt_duplicateScope := Some (duplicateScope settings);
       duplicateScopeOptions := Some {|
         scope_deckName := Some (deckName settings);
         checkChildren := Some true;
         checkAllModels := Some false |} |} |}.

End Builder.

(** ** Predicates and inputs used by the statements below *)

Definition concatText (segments : list FuriganaSegment) : jsstring :=
  concat (map text segments).

(** The first run of the expression is not a kana run, or it is found at
    the very start of the normalized reading: the matching loop then never
    emits skipped reading text as a segment of its own. *)
Definition firstRunAnchored (expression reading0 : jsstring) : bool :=
  match splitGroups expression with
  | group :: _ =>
    negb (isKana group)
    || (indexOf (katakanaToHiragana reading0)
                (katakanaToHiragana (gtext group)) 0 <=? 0)
  | [] => true
  end.

(** The texts of the runs, put back together. *)
Definition flatGroups (gs : list Group) : jsstring := concat (map gtext gs).

(** The number that the HTML serialization gives to a sense that is not
    native-language: one more than the number of such senses before it. *)
Definition nonNativeCount (before : list Sense) : Z :=
  Z.of_nat (length (filter (fun sense => isNative sense = false) before)).

Definition htmlPrefix (before : list Sense) (sense : Sense) : jsstring :=
  if isNative sense then js "• "
  else js "(" ++ String_of_Z (1 + nonNativeCount before) ++ js ") ".

(** Two senses, the first with an empty language tag. *)
Definition emptyLangSenses : list Sense :=
  [ {| s_g := [{| g_str := js "cat"; g_type := None |}];
       s_pos := None; s_field := None; s_misc := None; s_inf := None;
       s_lang := Some [] |};
    {| s_g := [{| g_str := js "dog"; g_type := None |}];
       s_pos := None; s_field := None; s_misc := None; s_inf := None;
       s_lang := None |} ].

(** Three senses: English, German, untagged. *)
Definition mixedSenses : list Sense :=
  [ {| s_g := [{| g_str := js "cat"; g_type := None |}];
       s_pos := None; s_field := None; s_misc := None; s_inf := None;
       s_lang := Some (js "en") |};
    {| s_g := [{| g_str := js "Katze"; g_type := None |}];
       s_pos := None; s_field := None; s_misc := None; s_inf := None;
       s_lang := Some (js "de") |};
    {| s_g := [{| g_str := js "feline"; g_type := Some (js "tm") |}];
       s_pos := None; s_field := None; s_misc := None; s_inf := None;
       s_lang := None |} ].

(** A well-formed marker name: one [\w], then [\w] or hyphens. *)
Definition isMarkerName (markerName : jsstring) : bool :=
  match markerName with
  | first :: run => isWordChar first && forallb isNameChar run
  | [] => false
  end.

(** ** Sample entries and settings *)

(** An empty table of localisation keys. *)
Definition noDeinflectKeys (r : Z) : option jsstring := None.

(** A word without kanji headword whose first reading is search-only kana. *)
Definition skFirstWord : WordResult :=
  {| w_k := None;
     w_r := [ {| r_ent := js "アップ"; r_i := Some [js "sk"];
                 r_romaji := None; r_a := AccentOther |};
              {| r_ent := js "あっぷ"; r_i := None;
                 r_romaji := None; r_a := AccentOther |} ];
     w_s := [];
     w_reasonChains := None;
     w_frequencyRank := None |}.

Definition nekoKanji : KanjiResult :=
  {| kj_c := js "猫";
     kj_on := Some [js "ビョウ"];
     kj_kun := Some [js "ねこ"];
     kj_m := [js "cat"];
     kj_sc := Some 11 |}.

(** The text of the built-in functions of [Object.prototype] in V8; the
    function found under [constructor] is called [Object]. *)
Definition v8FunctionText (name : jsstring) : jsstring :=
  js "function "
  ++ (if jseq name (js "constructor") then js "Object" else name)
  ++ js "() { [native code] }".

Definition settingsWith (templates : gmap (list Z) (list Z)) : AnkiSettings :=
  {| enabled := true;
     server := js "http://127.0.0.1:8765";
     apiKey := [];
     deckName := js "Default";
     modelName := js "Basic";
     tags := [js "10ten"];
     fieldTemplates := templates;
     duplicateScope := collection;
     checkForDuplicates := true |}.

(** ** Kana normalization, unit by unit *)

(** What [katakanaToHiragana] does to one code unit: katakana ァ..ヶ move
    down to hiragana ぁ..ゖ, every other unit stays. *)
Definition hiraganaUnit (u : Z) : Z :=
  if (0x30a1 <=? u) && (u <=? 0x30f6) then u - 0x60 else u.

(** A character of the string iterator: one code unit, or a surrogate pair. *)
Inductive isChar : jsstring -> Prop :=
| isChar_unit (u : Z) : isChar [u]
| isChar_pair (h l : Z) :
    isHighSurrogate h && isLowSurrogate l = true -> isChar [h; l].

(** The accents of the displayed readings, in the order in which the pitch
    loop visits them: the reading and the drop position. *)
Definition accentsOf (readings : list Reading) : list (jsstring * Z) :=
  flat_map (fun r =>
              match r_a r with
              | AccentNumber accentValue => [(r_ent r, accentValue)]
              | AccentArray accentValue => map (pair (r_ent r)) accentValue
              | AccentOther => []
              end)
           readings.

(** ** Runs of characters *)

(** The grouping of the expression stated on its own: a character joins
    the run that follows it when that run has its kind, and starts a run
    otherwise.  A run is its kind (kana or not) and its characters. *)
Fixpoint groupRuns (cs : list jsstring) : list (bool * list jsstring) :=
  match cs with
  | [] => []
  | c :: cs' =>
    match groupRuns cs' with
    | (b, run) :: rest =>
      if Bool.eqb (isKanaChar c) b then (b, c :: run) :: rest
      else (isKanaChar c, [c]) :: (b, run) :: rest
    | [] => [(isKanaChar c, [c])]
    end
  end.

Definition runGroup (run : bool * list jsstring) : Group :=
  {| gtext := concat run.2; isKana := run.1 |}.

(** The groups that the loop will have pushed, when it holds the current
    group [cur] of kind [b] and the runs [rs] are still to come. *)
Definition joinRun (b : bool) (cur : jsstring) (rs : list (bool * list jsstring))
  : list Group :=
  match rs with
  | (b', run) :: rest =>
    if Bool.eqb b b'
    then {| gtext := cur ++ concat run; isKana := b |} :: map runGroup rest
    else {| gtext := cur; isKana := b |} :: map runGroup rs
  | [] => [{| gtext := cur; isKana := b |}]
  end.




(** ** Audio files ([background/audio-fetcher.ts]) *)

Record AudioResult := {
  filename : jsstring;
  base64 : jsstring;
  contentType : jsstring
}.

(** [s.replace(/[^a-z0-9_-]/gi, '_')]: without the unicode flag the class
    is tested on every code unit, and with the ignore-case flag it holds
    the ASCII letters of both cases and nothing outside ASCII. *)
Definition replaceUnsafe (s : jsstring) : jsstring :=
  map (fun u => if isNameChar u then u else 0x5F) s.

(** [s.replace(/[:.]/g, '-')] *)
Definition replaceColonDot (s : jsstring) : jsstring :=
  map (fun u => if (u =? 0x3A) || (u =? 0x2E) then 0x2D else u) s.

(** [buildAudioResult]; [isoNow] is the value of
    [new Date().toISOString()]. *)
Definition buildAudioResult (isoNow expression base64data : jsstring) : AudioResult :=
  let safeExpr := slice (replaceUnsafe expression) 0 80 in
  let timestamp := replaceColonDot isoNow in
  {| filename := js "10ten_audio_" ++ safeExpr ++ js "_" ++ timestamp ++ js ".mp3";
     base64 := base64data;
     contentType := js "audio/mpeg" |}.

Definition JPOD101_INVALID_AUDIO_HASH : jsstring :=
  js "ae6398b5a27bc8c0a771df6c907ade794be15518174773c58c7c7ddd17098906".

(** A digit of [n.toString(16)]. *)
Definition hexDigit (d : Z) : Z := if d <? 10 then 0x30 + d else 0x61 + (d - 10).

(** [n.toString(16)] for an integer [n >= 0]: the digits in base 16, most
    significant first, without leading zero. *)
Fixpoint toRadix16 (fuel : nat) (n : Z) : jsstring :=
  match fuel with
  | O => []
  | S fuel' =>
    if n <? 16 then [hexDigit n]
    else toRadix16 fuel' (n / 16) ++ [hexDigit (n mod 16)]
  end.

Definition toString16 (n : Z) : jsstring :=
  toRadix16 (S (Z.to_nat (Z.log2 n))) n.

(** [s.padStart(targetLength, pad)] with a pad of one code unit. *)
Definition padStart (s : jsstring) (targetLength : nat) (pad : Z) : jsstring :=
  replicate (targetLength - length s) pad ++ s.

(** [hashArray.map((b) => b.toString(16).padStart(2, '0')).join('')] *)
Definition hashHex (hashArray : list Z) : jsstring :=
  join [] (map (fun b => padStart (toString16 b) 2 0x30) hashArray).

(** [isInvalidJpod101Audio]; [digest] is the SHA-256 of the buffer as
    computed by [crypto.subtle.digest], [None] when that call throws. *)
Definition isInvalidJpod101Audio (digest : option (list Z)) : bool :=
  match digest with
  | Some hashArray => jseq (hashHex hashArray) JPOD101_INVALID_AUDIO_HASH
  | None => false
  end.

(** The bytes that the hash constant spells. *)
Definition jpod101InvalidAudioBytes : list Z :=
  [0xae; 0x63; 0x98; 0xb5; 0xa2; 0x7b; 0xc8; 0xc0; 0xa7; 0x71; 0xdf; 0x6c;
   0x90; 0x7a; 0xde; 0x79; 0x4b; 0xe1; 0x55; 0x18; 0x17; 0x47; 0x73; 0xc5;
   0x8c; 0x7c; 0x7d; 0xdd; 0x17; 0x09; 0x89; 0x06].

Definition isByte (b : Z) : Prop := 0 <= b < 256.

Inductive AudioSourceType := jpod101 | jisho.


(** What a call that may throw gives back. *)
Inductive Outcome (A : Type) :=
| Returns (value : A)
| Throws.
Arguments Returns {A} value.
Arguments Throws {A}.

Section AudioChain.

(** [fetchAudioFromSource(source, expression, reading)] and
    [ankiConnect.storeMediaFile(filename, base64)], as what each call
    gives back; every source is asked at most once. *)
Variable fetchAudioFromSource : AudioSourceType -> Outcome (option AudioResult).
Variable storeMediaFile : jsstring -> jsstring -> Outcome (option jsstring).

(** One iteration of the loop of [fetchAndStoreAudio]: [Some name] is the
    [return storedName] out of the loop, [None] goes on with the next
    source, also after an exception, which is caught and logged. *)
Definition tryAudioSource (source : AudioSourceType) : option jsstring :=
  match fetchAudioFromSource source with
  | Returns (Some result) =>
    match storeMediaFile (filename result) (base64 result) with
    | Returns (Some storedName) =>
      if truthy storedName then Some storedName else None
    | Returns None => None
    | Throws => None
    end
  | Returns None => None
  | Throws => None
  end.

(** The loop, with the list of the sources it has asked. *)
Fixpoint audioLoop (sources : list AudioSourceType)
  : option jsstring * list AudioSourceType :=
  match sources with
  | [] => (None, [])
  | source :: rest =>
    match tryAudioSource source with
    | Some storedName => (Some storedName, [source])
    | None => let '(found, asked) := audioLoop rest in (found, source :: asked)
    end
  end.


End AudioChain.

(** ** Base64 of a buffer ([utils/array-buffer-to-base64.ts]) *)

(** [String.fromCharCode.apply(null, Array.from(chunk))] *)
Definition fromCharCodes (chunk : list Z) : jsstring :=
  map (fun b => b mod 0x10000) chunk.

Section Base64.

(** The built-in [btoa]. *)
Variable btoa : jsstring -> jsstring.

(** The loop [for (let i = 0; i < bytes.length; i += chunkSize)] on
    [(i, binary)]; it runs at most [fuel] times. *)
Fixpoint base64Loop (fuel : nat) (chunkSize : Z) (bytes : list Z) (i : Z)
    (binary : jsstring) : jsstring :=
  match fuel with
  | O => binary
  | S fuel' =>
    if i <? jslen bytes then
      let chunk := slice bytes i (i + chunkSize) in
      base64Loop fuel' chunkSize bytes (i + chunkSize) (binary ++ fromCharCodes chunk)
    else binary
  end.

Definition arrayBufferToBase64 (bytes : list Z) : jsstring :=
  let chunkSize := 0x8000 in
  btoa (base64Loop (S (length bytes)) chunkSize bytes 0 []).

End Base64.

(** ** The tags field of the settings page *)

(** White space and line terminators, as [trim] and [parseInt] see them. *)
Definition isJsSpace (u : Z) : bool :=
  (u =? 0x09) || (u =? 0x0A) || (u =? 0x0B) || (u =? 0x0C) || (u =? 0x0D)
  || (u =? 0x20) || (u =? 0xA0) || (u =? 0x1680)
  || ((0x2000 <=? u) && (u <=? 0x200A))
  || (u =? 0x2028) || (u =? 0x2029) || (u =? 0x202F) || (u =? 0x205F)
  || (u =? 0x3000) || (u =? 0xFEFF).

Fixpoint trimStart (s : jsstring) : jsstring :=
  match s with
  | u :: rest => if isJsSpace u then trimStart rest else s
  | [] => []
  end.

Definition trimEnd (s : jsstring) : jsstring := rev (trimStart (rev s)).

(** [s.trim()] *)
Definition trim (s : jsstring) : jsstring := trimEnd (trimStart s).

(** [s.split(sep)] for a separator of one code unit: the pieces between
    the separators; the empty string gives one empty piece. *)
Fixpoint split (sep : Z) (s : jsstring) : list jsstring :=
  match s with
  | [] => [[]]
  | u :: rest =>
    if u =? sep then [] :: split sep rest
    else match split sep rest with
         | piece :: pieces => (u :: piece) :: pieces
         | [] => [[u]]
         end
  end.

(** [value.split(',').map((t) => t.trim()).filter(Boolean)], the handler
    of the tags input. *)
Definition parseTags (value : jsstring) : list jsstring :=
  filter (fun t => truthy t = true) (map trim (split 0x2C value)).

(** [settings.tags.join(', ')], the value shown in the tags input. *)
Definition showTags (tagList : list jsstring) : jsstring :=
  join (js ", ") tagList.

(** ** Word frequencies ([background/frequency-data.ts]) *)

(** Search of the last occurrence of [needle] in [hay], whose first code
    unit has index [k]. *)
Fixpoint lastIndexOfFrom (needle hay : jsstring) (k : Z) : Z :=
  match hay with
  | [] => if startsWith needle [] then k else -1
  | _ :: rest =>
    let later := lastIndexOfFrom needle rest (k + 1) in
    if 0 <=? later then later
    else if startsWith needle hay then k else -1
  end.

(** [s.lastIndexOf(needle)] *)
Definition lastIndexOf (s needle : jsstring) : Z := lastIndexOfFrom needle s 0.

(** [s.substring(start, end)]: both indices are clamped to the string and
    swapped when they come in the wrong order. *)
Definition substring (s : jsstring) (start stop : Z) : jsstring :=
  let a := clamp 0 (jslen s) start in
  let b := clamp 0 (jslen s) stop in
  take (Z.to_nat (Z.max a b - Z.min a b)) (drop (Z.to_nat (Z.min a b)) s).

Definition substringFrom (s : jsstring) (start : Z) : jsstring :=
  substring s start (jslen s).

Definition isDigit (u : Z) : bool := (0x30 <=? u) && (u <=? 0x39).

Fixpoint digitRun (s : jsstring) : jsstring :=
  match s with
  | u :: rest => if isDigit u then u :: digitRun rest else []
  | [] => []
  end.

Definition digitsValue (digits : jsstring) : Z :=
  foldl (fun value d => value * 10 + (d - 0x30)) 0 digits.

(** [parseInt(s, 10)]: leading white space is skipped, a sign is read,
    then the longest run of decimal digits; [None] is [NaN], the result
    when there is no digit. *)
Definition parseInt10 (s : jsstring) : option Z :=
  let s1 := trimStart s in
  let '(sign, s2) :=
    match s1 with
    | u :: rest =>
      if u =? 0x2D then (-1, rest)
      else if u =? 0x2B then (1, rest)
      else (1, s1)
    | [] => (1, s1)
    end in
  match digitRun s2 with
  | [] => None
  | digits => Some (sign * digitsValue digits)
  end.

Record FrequencyIndex := {
  pairs : gmap (list Z) Z;
  singles : gmap (list Z) Z
}.

(** [if (!m.has(key) || m.get(key)! > rank) m.set(key, rank)] *)
Definition setIfBetter (m : gmap (list Z) Z) (key : jsstring) (rank : Z)
  : gmap (list Z) Z :=
  match m !! key with
  | Some old => if rank <? old then <[key := rank]> m else m
  | None => <[key := rank]> m
  end.

(** The state of the module: both maps are [undefined] until loaded. *)
Record FrequencyState := {
  pairMap : option (gmap (list Z) Z);
  singleMap : option (gmap (list Z) Z)
}.

Section Frequency.

(** [kanaToHiragana] of the package [@birchill/normal-jp]. *)
Variable kanaToHiragana : jsstring -> jsstring.

Definition compositeKey (normWord normForm : jsstring) : jsstring :=
  normWord ++ [0x09] ++ normForm.

(** The updates that the loop of [doLoad] makes for a line that it has
    decoded. *)
Definition addEntry (index : FrequencyIndex) (word form : jsstring) (rank : Z)
  : FrequencyIndex :=
  let normWord := kanaToHiragana word in
  let normForm := kanaToHiragana form in
  let singles1 := setIfBetter (singles index) normWord rank in
  {| pairs := setIfBetter (pairs index) (compositeKey normWord normForm) rank;
     singles :=
       if negb (jseq normForm normWord)
       then setIfBetter singles1 normForm rank
       else singles1 |}.

(** The body of the loop of [doLoad], with its [continue]s. *)
Definition lineStep (index : FrequencyIndex) (line : jsstring) : FrequencyIndex :=
  if negb (truthy line) then index
  else
    let firstComma := indexOf line (js ",") 0 in
    if firstComma =? -1 then index
    else
      let lastComma := lastIndexOf line (js ",") in
      if lastComma =? firstComma then index
      else
        let word := substring line 0 firstComma in
        let form := substring line (firstComma + 1) lastComma in
        match parseInt10 (substringFrom line (lastComma + 1)) with
        | None => index
        | Some rank => addEntry index word form rank
        end.

Definition emptyIndex : FrequencyIndex := {| pairs := ∅; singles := ∅ |}.

(** [doLoad]: [fetched] is the text of the bundled CSV file, [None] when
    fetching it throws; the first line is the header. *)
Definition doLoad (fetched : option jsstring) : FrequencyState :=
  match fetched with
  | Some fileText =>
    let index := foldl lineStep emptyIndex (drop 1 (split 0x0A fileText)) in
    {| pairMap := Some (pairs index); singleMap := Some (singles index) |}
  | None => {| pairMap := Some ∅; singleMap := Some ∅ |}
  end.

Definition notLoaded : FrequencyState := {| pairMap := None; singleMap := None |}.

(** [x ? kanaToHiragana(x) : undefined] *)
Definition normalizeArg (x : option jsstring) : option jsstring :=
  match x with
  | Some s => if truthy s then Some (kanaToHiragana s) else None
  | None => None
  end.

(** A value [string | undefined] as a condition. *)
Definition truthyOpt (x : option jsstring) : bool :=
  match x with Some s => truthy s | None => false end.

Definition getFrequencyRank (state : FrequencyState)
    (kanjiHeadword kanaReading : option jsstring) : option Z :=
  match pairMap state, singleMap state with
  | Some pm, Some sm =>
    let normKanji := normalizeArg kanjiHeadword in
    let normKana := normalizeArg kanaReading in
    if truthyOpt normKanji && truthyOpt normKana then
      pm !! (orEmpty normKanji ++ [0x09] ++ orEmpty normKana)
    else if truthyOpt normKanji then sm !! orEmpty normKanji
    else if truthyOpt normKana then sm !! orEmpty normKana
    else None
  | _, _ => None
  end.

(** The line as the loop decodes it: word, form and rank. *)
Definition decodeLine (line : jsstring) : option (jsstring * jsstring * Z) :=
  if negb (truthy line) then None
  else
    let firstComma := indexOf line (js ",") 0 in
    if firstComma =? -1 then None
    else
      let lastComma := lastIndexOf line (js ",") in
      if lastComma =? firstComma then None
      else
        match parseInt10 (substringFrom line (lastComma + 1)) with
        | None => None
        | Some rank =>
          Some (substring line 0 firstComma,
                substring line (firstComma + 1) lastComma, rank)
        end.

(** The entries decoded from a list of lines, in order. *)
Definition decodedEntries (lines : list jsstring) : list (jsstring * jsstring * Z) :=
  omap decodeLine lines.

End Frequency.

(** The lowest of a list of ranks, [None] when there is none. *)
Definition lowestRank (ranks : list Z) : option Z :=
  foldl (fun best rank =>
           Some (match best with Some old => Z.min old rank | None => rank end))
        None ranks.

Section FrequencySpec.

Variable kanaToHiragana : jsstring -> jsstring.

(** The ranks of the entries filed under a composite key, and under a
    single key. *)
Definition pairRanks (key : jsstring) (entries : list (jsstring * jsstring * Z))
  : list Z :=
  map snd
    (filter (fun e => compositeKey (kanaToHiragana e.1.1) (kanaToHiragana e.1.2) = key)
            entries).

Definition singleRanks (key : jsstring) (entries : list (jsstring * jsstring * Z))
  : list Z :=
  map snd
    (filter (fun e => kanaToHiragana e.1.1 = key \/ kanaToHiragana e.1.2 = key)
            entries).

End FrequencySpec.

Section FrequencyEntries.

Variable kanaToHiragana : jsstring -> jsstring.

(** The index after a list of decoded entries. *)
Definition indexOfEntries (index : FrequencyIndex)
    (entries : list (jsstring * jsstring * Z)) : FrequencyIndex :=
  foldl (fun index e => addEntry kanaToHiragana index e.1.1 e.1.2 e.2) index entries.

(** [m] is the lowest of the ranks. *)
Definition isLowest (ranks : list Z) (m : Z) : Prop :=
  m ∈ ranks /\ forall r, r ∈ ranks -> m <= r.

End FrequencyEntries.

(** ** Results of AnkiConnect ([background/anki-connect.ts]) *)

(** A value of type [unknown] as it comes out of [JSON.parse], or
    [undefined] for a property that is not there.  The properties of an
    object are listed as in the JSON text; a later duplicate wins. *)
#[warnings="-register-all"]
Inductive JSONValue :=
| JUndefined
| JNull
| JBool (b : bool)
| JNumber (n : Z)
| JString (s : jsstring)
| JArray (items : list JSONValue)
| JObject (props : list (jsstring * JSONValue)).

(** [typeof v] *)
Definition typeOf (v : JSONValue) : jsstring :=
  match v with
  | JUndefined => js "undefined"
  | JNull => js "object"
  | JBool _ => js "boolean"
  | JNumber _ => js "number"
  | JString _ => js "string"
  | JArray _ => js "object"
  | JObject _ => js "object"
  end.

Fixpoint lookupProp (props : list (jsstring * JSONValue)) (name : jsstring)
  : JSONValue :=
  match props with
  | [] => JUndefined
  | (key, value) :: rest =>
    match lookupProp rest name with
    | JUndefined => if jseq key name then value else JUndefined
    | later => later
    end
  end.

(** [v.name] for one of the property names that the client reads (none of
    them is a property of arrays). *)
Definition getProp (v : JSONValue) (name : jsstring) : JSONValue :=
  match v with
  | JObject props => lookupProp props name
  | _ => JUndefined
  end.

(** The outcome of a method that may [throw new Error(message)]. *)
Inductive Thrown (A : Type) :=
| Value (value : A)
| Error (message : jsstring).
Arguments Value {A} value.
Arguments Error {A} message.

(** The message of [_createUnexpectedResultError]. *)
Definition unexpectedResultMessage (expectedType : jsstring) (result : JSONValue)
  : jsstring :=
  let actualType :=
    match result with
    | JNull => js "null"
    | JArray _ => js "array"
    | _ => typeOf result
    end in
  js "Unexpected AnkiConnect result: expected " ++ expectedType
  ++ js ", received " ++ actualType.

(** The loop of [_normalizeArray] from index [i] on: the first element of
    another type throws. *)
Fixpoint checkTypes (type : jsstring) (i : Z) (items : list JSONValue)
  : option jsstring :=
  match items with
  | [] => None
  | item :: rest =>
    if negb (jseq (typeOf item) type) then
      Some (js "Unexpected result type at index " ++ String_of_Z i
            ++ js ": expected " ++ type ++ js ", received " ++ typeOf item)
    else checkTypes type (i + 1) rest
  end.

Definition _normalizeArray (result : JSONValue) (expectedCount : Z) (type : jsstring)
  : Thrown (list JSONValue) :=
  match result with
  | JArray items =>
    if (0 <=? expectedCount) && negb (expectedCount =? Z.of_nat (length items)) then
      Error (js "Unexpected result array size: expected " ++ String_of_Z expectedCount
             ++ js ", received " ++ String_of_Z (Z.of_nat (length items)))
    else
      match checkTypes type 0 items with
      | Some message => Error message
      | None => Value items
      end
  | _ => Error (unexpectedResultMessage (type ++ js "[]") result)
  end.

Record CardInfo := {
  ci_noteId : Z;
  ci_cardId : Z;
  ci_flags : Z;
  ci_cardState : Z
}.

(** [typeof v === 'number' ? v : 0] *)
Definition numberOr0 (v : JSONValue) : Z :=
  match v with JNumber n => n | _ => 0 end.

(** [item === null || typeof item !== 'object'] *)
Definition notAnObject (item : JSONValue) : bool :=
  match item with
  | JArray _ | JObject _ => false
  | _ => true
  end.

(** What the loop of [_normalizeCardInfoArray] pushes for an item that is
    an object: [null] unless [cardId] and [note] are numbers. *)
Definition cardInfoOf (item : JSONValue) : option CardInfo :=
  match getProp item (js "cardId"), getProp item (js "note") with
  | JNumber cardId, JNumber note =>
    Some {| ci_noteId := note;
            ci_cardId := cardId;
            ci_flags := numberOr0 (getProp item (js "flags"));
            ci_cardState := numberOr0 (getProp item (js "queue")) |}
  | _, _ => None
  end.

(** The loop of [_normalizeCardInfoArray] from index [i] on, with its
    [output]. *)
Fixpoint cardInfoLoop (i : Z) (items : list JSONValue)
    (output : list (option CardInfo)) : Thrown (list (option CardInfo)) :=
  match items with
  | [] => Value output
  | item :: rest =>
    if notAnObject item then
      Error (js "Unexpected result type at index " ++ String_of_Z i
             ++ js ": expected CardInfo")
    else
      cardInfoLoop (i + 1) rest (output ++ [cardInfoOf item])
  end.

Definition _normalizeCardInfoArray (result : JSONValue)
  : Thrown (list (option CardInfo)) :=
  match result with
  | JArray items => cardInfoLoop 0 items []
  | _ => Error (unexpectedResultMessage (js "array") result)
  end.

Record CanAddNoteDetail := {
  canAdd : bool;
  error : option jsstring
}.

(** The loop of [_normalizeCanAddNotesWithErrorDetailArray]. *)
Fixpoint canAddLoop (i : Z) (items : list JSONValue)
    (output : list CanAddNoteDetail) : Thrown (list CanAddNoteDetail) :=
  match items with
  | [] => Value output
  | item :: rest =>
    if notAnObject item then
      Error (js "Unexpected result type at index " ++ String_of_Z i
             ++ js ": expected object")
    else
      match getProp item (js "canAdd") with
      | JBool flag =>
        canAddLoop (i + 1) rest
          (output ++ [{| canAdd := flag;
                         error := match getProp item (js "error") with
                                  | JString message => Some message
                                  | _ => None
                                  end |}])
      | _ =>
        Error (js "Unexpected type at index " ++ String_of_Z i
               ++ js " for canAdd: expected boolean")
      end
  end.

Definition _normalizeCanAddNotesWithErrorDetailArray (result : JSONValue)
    (expectedCount : Z) : Thrown (list CanAddNoteDetail) :=
  match result with
  | JArray items =>
    if negb (expectedCount =? Z.of_nat (length items)) then
      Error (js "Unexpected result array size: expected " ++ String_of_Z expectedCount
             ++ js ", received " ++ String_of_Z (Z.of_nat (length items)))
    else canAddLoop 0 (take (Z.to_nat expectedCount) items) []
  | _ => Error (unexpectedResultMessage (js "array") result)
  end.

(* ===================================================================== *)
(** * Part II: properties                                                 *)
(* ===================================================================== *)

(** ** Strings *)

Lemma chars_cons2 h l (t : jsstring) :
  chars (h :: l :: t)
  = if isHighSurrogate h && isLowSurrogate l
    then [h; l] :: chars t else [h] :: chars (l :: t).
Proof. reflexivity. Qed.

Lemma chars_concat (s : jsstring) : concat (chars s) = s.
Proof.
  remember (length s) as n eqn:Hn.
  revert s Hn. induction n as [n IH] using lt_wf_ind. intros s Hn.
  destruct s as [|h [|l t]]; [done | done |].
  rewrite chars_cons2. destruct (isHighSurrogate h && isLowSurrogate l).
  - change (concat ([h; l] :: chars t)) with (h :: l :: concat (chars t)).
    do 2 f_equal. apply (IH (length t)); [subst n; simpl; lia | done].
  - change (concat ([h] :: chars (l :: t))) with (h :: concat (chars (l :: t))).
    f_equal. apply (IH (length (l :: t))); [subst n; simpl; lia | done].
Qed.

Lemma jseq_eq (a b : jsstring) : jseq a b = true <-> a = b.
Proof.
  revert b. induction a as [|x a IH]; intros [|y b]; simpl; try easy.
  rewrite andb_true_iff, Z.eqb_eq, IH. split; [intros [-> ->]; done | by intros [= -> ->]].
Qed.

Lemma jseq_refl (a : jsstring) : jseq a a = true.
Proof. by apply jseq_eq. Qed.

(** [indexOfFrom] returns the offset of the first occurrence, or [-1] when
    the needle occurs nowhere. *)
Lemma indexOfFrom_spec (needle hay : jsstring) (k : Z) :
  0 <= k ->
  (indexOfFrom needle hay k = -1
   /\ forall i, (i <= length hay)%nat -> startsWith needle (drop i hay) = false)
  \/ exists i, (i <= length hay)%nat
       /\ indexOfFrom needle hay k = k + Z.of_nat i
       /\ startsWith needle (drop i hay) = true
       /\ forall j, (j < i)%nat -> startsWith needle (drop j hay) = false.
Proof.
  revert k. induction hay as [|u hay IH]; intros k Hk.
  - cbn [indexOfFrom]. destruct (startsWith needle []) eqn:Hs.
    + right. exists 0%nat. repeat split; [done | lia | done | lia].
    + left. split; [done|]. intros i Hi. by rewrite drop_nil.
  - cbn [indexOfFrom]. destruct (startsWith needle (u :: hay)) eqn:Hs.
    + right. exists 0%nat. repeat split; [simpl; lia | lia | done | lia].
    + destruct (IH (k + 1)) as [[Hnone Hall]|(i & Hi & Hidx & Hat & Hbefore)]; [lia| |].
      * left. split; [done|]. intros [|i] Hi; [done|]. apply Hall. simpl in Hi. lia.
      * right. exists (S i). repeat split; [simpl; lia | lia | done |].
        intros [|j] Hj; [done|]. apply Hbefore. lia.
Qed.

(** [indexOf] is negative exactly when the needle does not occur at or
    after the (clamped) position. *)
Lemma indexOf_negative (s needle : jsstring) (position : Z) :
  indexOf s needle position < 0
  <-> forall i, (Z.to_nat (clamp 0 (jslen s) position) <= i <= length s)%nat ->
        startsWith needle (drop i s) = false.
Proof.
  unfold indexOf. set (p := clamp 0 (jslen s) position).
  assert (Hp : 0 <= p <= jslen s) by (unfold p, clamp, jslen; lia).
  unfold jslen in Hp.
  destruct (indexOfFrom_spec needle (drop (Z.to_nat p) s) p)
    as [[Hnone Hall]|(i & Hi & Hidx & Hat & _)]; [lia| |].
  - rewrite Hnone. split; [|lia]. intros _ i Hi.
    specialize (Hall (i - Z.to_nat p)%nat). rewrite length_drop, drop_drop in Hall.
    replace (Z.to_nat p + (i - Z.to_nat p))%nat with i in Hall by lia.
    apply Hall. lia.
  - rewrite Hidx. split; [lia|]. intros Hall. exfalso.
    rewrite length_drop in Hi. rewrite drop_drop in Hat.
    rewrite Hall in Hat by lia. done.
Qed.

(** ** Furigana: the text of the segments *)

Lemma setReading_text i r segments :
  map text (setReading i r segments) = map text segments.
Proof.
  unfold setReading. revert i.
  induction segments as [|seg segs IH]; intros [|i]; try done.
  change (map text (seg :: alter (fun s => {| text := text s; reading := r |}) i segs)
          = map text (seg :: segs)).
  simpl. f_equal. apply IH.
Qed.

Lemma concatText_app a b : concatText (a ++ b) = concatText a ++ concatText b.
Proof. unfold concatText. by rewrite map_app, concat_app. Qed.

Lemma concatText_setReading i r segments :
  concatText (setReading i r segments) = concatText segments.
Proof. unfold concatText. by rewrite setReading_text. Qed.

Lemma pushCurrent_flat st :
  flatGroups (pushCurrent st) = flatGroups (groups st) ++ currentGroup st.
Proof.
  unfold pushCurrent, flatGroups. destruct (currentGroup st) as [|u cur] eqn:E; simpl.
  - by rewrite app_nil_r.
  - rewrite map_app, concat_app. simpl. by rewrite app_nil_r.
Qed.

Lemma groupStep_flat st char :
  flatGroups (groups (groupStep st char)) ++ currentGroup (groupStep st char)
  = (flatGroups (groups st) ++ currentGroup st) ++ char.
Proof.
  unfold groupStep. case_bool_decide; simpl.
  - by rewrite app_assoc.
  - by rewrite pushCurrent_flat.
Qed.

Lemma foldl_groupStep_flat cs st :
  let st' := foldl groupStep st cs in
  flatGroups (groups st') ++ currentGroup st'
  = (flatGroups (groups st) ++ currentGroup st) ++ concat cs.
Proof.
  revert st. induction cs as [|c cs IH]; intros st; simpl.
  - by rewrite app_nil_r.
  - rewrite IH, groupStep_flat. by rewrite <- app_assoc.
Qed.

(** The runs of an expression, put back together, are the expression. *)
Lemma splitGroups_flat expression : flatGroups (splitGroups expression) = expression.
Proof.
  unfold splitGroups. rewrite pushCurrent_flat.
  pose proof (foldl_groupStep_flat (chars expression)
    {| groups := []; currentGroup := []; currentIsKana := None |}) as H.
  simpl in H. rewrite H. apply chars_concat.
Qed.

Lemma app_singleton_not_nil {A} (l : list A) (x : A) : l ++ [x] <> [].
Proof. by destruct l. Qed.

(** Once a segment exists, an iteration of the matching loop adds exactly
    the text of its run. *)
Lemma walkStep_text reading0 readingNorm segments readingPos group segments' readingPos' :
  segments <> [] ->
  walkStep reading0 readingNorm (segments, readingPos) group
    = Some (segments', readingPos') ->
  concatText segments' = concatText segments ++ gtext group /\ segments' <> [].
Proof.
  intros Hne. unfold walkStep.
  assert (Hlen : (0 <? Z.of_nat (length segments)) = true).
  { destruct segments; [done | simpl; apply Z.ltb_lt; lia]. }
  rewrite Hlen, andb_true_r. clear Hlen.
  destruct (isKana group).
  - destruct (0 <=? _); [|done].
    intros [= <- <-]. split; [|apply app_singleton_not_nil].
    rewrite concatText_app. unfold concatText at 2. simpl. rewrite app_nil_r. f_equal.
    destruct (readingPos <? _); [|done].
    destruct (last segments) as [lastSeg|]; [|done].
    destruct (truthy (reading lastSeg) || negb (truthy (reading lastSeg)));
      [apply concatText_setReading | done].
  - intros [= <- <-]. split; [|apply app_singleton_not_nil].
    rewrite concatText_app. unfold concatText at 2. simpl. by rewrite app_nil_r.
Qed.

(** The first iteration, on an anchored first run. *)
Lemma walkStep_text_first reading0 readingNorm group segments' readingPos' :
  negb (isKana group)
  || (indexOf readingNorm (katakanaToHiragana (gtext group)) 0 <=? 0) = true ->
  walkStep reading0 readingNorm ([], 0) group = Some (segments', readingPos') ->
  concatText segments' = gtext group /\ segments' <> [].
Proof.
  intros Hanchor. unfold walkStep.
  destruct (isKana group); simpl in Hanchor.
  - apply Z.leb_le in Hanchor.
    destruct (0 <=? _); [|done].
    replace (0 <? indexOf readingNorm (katakanaToHiragana (gtext group)) 0)
      with false by (symmetry; apply Z.ltb_ge; lia).
    simpl. intros [= <- <-]. split; [|done].
    unfold concatText. simpl. by rewrite app_nil_r.
  - intros [= <- <-]. split; [|done].
    unfold concatText. simpl. by rewrite app_nil_r.
Qed.

Lemma walk_text reading0 readingNorm gs segments readingPos segments' readingPos' :
  segments <> [] ->
  walk reading0 readingNorm gs (segments, readingPos) = Some (segments', readingPos') ->
  concatText segments' = concatText segments ++ flatGroups gs.
Proof.
  revert segments readingPos.
  induction gs as [|group gs IH]; intros segments readingPos Hne; cbn [walk].
  - intros [= <- <-]. unfold flatGroups. simpl. by rewrite app_nil_r.
  - destruct (walkStep reading0 readingNorm (segments, readingPos) group)
      as [[segments1 readingPos1]|] eqn:Hstep; [|done].
    intros Hwalk.
    destruct (walkStep_text _ _ _ _ _ _ _ Hne Hstep) as [Htext Hne1].
    rewrite (IH _ _ Hne1 Hwalk), Htext.
    unfold flatGroups. simpl. by rewrite app_assoc.
Qed.

Lemma walk_text_anchored reading0 readingNorm gs segments' readingPos' :
  match gs with
  | group :: _ =>
    negb (isKana group)
    || (indexOf readingNorm (katakanaToHiragana (gtext group)) 0 <=? 0)
  | [] => true
  end = true ->
  walk reading0 readingNorm gs ([], 0) = Some (segments', readingPos') ->
  concatText segments' = flatGroups gs.
Proof.
  destruct gs as [|group gs]; cbn [walk].
  - by intros _ [= <- <-].
  - intros Hanchor.
    destruct (walkStep reading0 readingNorm ([], 0) group)
      as [[segments1 readingPos1]|] eqn:Hstep; [|done].
    intros Hwalk.
    destruct (walkStep_text_first _ _ _ _ _ Hanchor Hstep) as [Htext Hne1].
    rewrite (walk_text _ _ _ _ _ _ _ Hne1 Hwalk), Htext. done.
Qed.

Lemma concatText_single expression r :
  concatText [{| text := expression; reading := r |}] = expression.
Proof. unfold concatText. simpl. apply app_nil_r. Qed.

(** Without the anchoring condition the first iteration may emit the
    skipped part of the reading before the text of its run. *)
Lemma walkStep_text_any reading0 readingNorm group segments' readingPos' :
  walkStep reading0 readingNorm ([], 0) group = Some (segments', readingPos') ->
  segments' <> []
  /\ (concatText segments' = gtext group
      \/ exists foundIdx,
           0 < foundIdx /\ isKana group = true
           /\ foundIdx = indexOf readingNorm (katakanaToHiragana (gtext group)) 0
           /\ concatText segments' = slice reading0 0 foundIdx ++ gtext group).
Proof.
  unfold walkStep. destruct (isKana group).
  - destruct (0 <=? _); [|done]. cbn [length Z.of_nat Z.ltb Z.compare andb].
    destruct (0 <? indexOf readingNorm (katakanaToHiragana (gtext group)) 0) eqn:Hlt;
      intros [= <- <-]; (split; [done|]).
    + right. eexists. split; [by apply Z.ltb_lt|]. split; [done|]. split; [done|].
      unfold concatText. simpl. by rewrite app_nil_r.
    + left. unfold concatText. simpl. by rewrite app_nil_r.
  - intros [= <- <-]. split; [done|]. left.
    unfold concatText. simpl. by rewrite app_nil_r.
Qed.

(** When the first run of the expression is not a kana run, or is found at
    the very start of the normalized reading, the texts of the segments are
    the expression. *)
Lemma distributeFurigana_text_anchored (expression reading0 : jsstring) :
  firstRunAnchored expression reading0 = true ->
  concatText (distributeFurigana expression reading0) = expression.
Proof.
  intros Hanchor. unfold distributeFurigana.
  destruct (jseq reading0 expression || negb (truthy reading0));
    [apply concatText_single|].
  destruct (isAllKana expression); [apply concatText_single|].
  destruct (length (splitGroups expression) =? 1)%nat; [apply concatText_single|].
  destruct (walk _ _ _ _) as [[segments readingPos]|] eqn:Hwalk;
    [|apply concatText_single].
  assert (Htext : concatText segments = expression).
  { rewrite (walk_text_anchored _ _ _ _ _ Hanchor Hwalk). apply splitGroups_flat. }
  destruct (readingPos <? jslen reading0); [|done].
  destruct (findLastKanji segments); [|done].
  by rewrite concatText_setReading.
Qed.

Example distributeFurigana_text_anchored_taberu :
  firstRunAnchored (js "食べる") (js "たべる") = true
  /\ concatText (distributeFurigana (js "食べる") (js "たべる")) = js "食べる".
Proof. split; reflexivity. Qed.

(** C1 (as amended).  Concatenating the [text] of every segment returned by
    [distributeFurigana] gives the expression, or else the expression
    preceded by [reading.slice(0, foundIdx)]: in that case the expression
    starts with a kana run, and [foundIdx > 0] is the offset at which the
    normalized text of that run is first found in the normalized
    reading. *)
Theorem distributeFurigana_text_concat (expression reading0 : jsstring) :
  concatText (distributeFurigana expression reading0) = expression
  \/ exists (group : Group) (rest : list Group) (foundIdx : Z),
       splitGroups expression = group :: rest
       /\ isKana group = true
       /\ foundIdx = indexOf (katakanaToHiragana reading0)
                             (katakanaToHiragana (gtext group)) 0
       /\ 0 < foundIdx
       /\ concatText (distributeFurigana expression reading0)
          = slice reading0 0 foundIdx ++ expression.
Proof.
  unfold distributeFurigana.
  destruct (jseq reading0 expression || negb (truthy reading0));
    [left; apply concatText_single|].
  destruct (isAllKana expression); [left; apply concatText_single|].
  destruct (length (splitGroups expression) =? 1)%nat; [left; apply concatText_single|].
  destruct (walk _ _ _ _) as [[segments readingPos]|] eqn:Hwalk;
    [|left; apply concatText_single].
  assert (Htext : concatText segments = expression
                  \/ exists group rest foundIdx,
                       splitGroups expression = group :: rest
                       /\ isKana group = true
                       /\ foundIdx = indexOf (katakanaToHiragana reading0)
                                             (katakanaToHiragana (gtext group)) 0
                       /\ 0 < foundIdx
                       /\ concatText segments = slice reading0 0 foundIdx ++ expression).
  { pose proof (splitGroups_flat expression) as Hflat.
    destruct (splitGroups expression) as [|group gs] eqn:Hgroups; cbn [walk] in Hwalk.
    - injection Hwalk as <- <-. by left.
    - destruct (walkStep reading0 (katakanaToHiragana reading0) ([], 0) group)
        as [[segments1 readingPos1]|] eqn:Hstep; [|done].
      destruct (walkStep_text_any _ _ _ _ _ Hstep)
        as [Hne [Hfirst|(idx & Hpos & Hkana & Hidx & Hfirst)]];
        rewrite (walk_text _ _ _ _ _ _ _ Hne Hwalk), Hfirst.
      + left. exact Hflat.
      + right. exists group, gs, idx. do 4 (split; [done|]).
        rewrite <- app_assoc. f_equal. exact Hflat. }
  destruct (readingPos <? jslen reading0); [|done].
  destruct (findLastKanji segments); [|done].
  by rewrite concatText_setReading.
Qed.

(** C1 as stated fails: the expression starts with the kana run "の", found
    at offset 1 of the reading, and the skipped "お" becomes a segment. *)
Lemma distributeFurigana_text_concat_counterexample :
  distributeFurigana (js "の山") (js "おのやま")
  = [ {| text := js "お"; reading := [] |};
      {| text := js "の"; reading := [] |};
      {| text := js "山"; reading := js "やま" |} ]
  /\ concatText (distributeFurigana (js "の山") (js "おのやま")) <> js "の山".
Proof. split; [reflexivity | by vm_compute]. Qed.

(** The examples of the specification. *)
Example distributeFurigana_kanji_only :
  distributeFurigana (js "漢字") (js "かんじ")
  = [{| text := js "漢字"; reading := js "かんじ" |}].
Proof. reflexivity. Qed.

Example distributeFurigana_taberu :
  distributeFurigana (js "食べる") (js "たべる")
  = [{| text := js "食"; reading := js "た" |};
     {| text := js "べる"; reading := [] |}].
Proof. reflexivity. Qed.

Example buildFurigana_tabemono :
  buildFuriganaPlain (js "食べ物") (js "たべもの") = js "食[た] べ 物[もの]"
  /\ buildFuriganaHtml (js "食べ物") (js "たべもの")
     = js "<ruby>食<rt>た</rt></ruby>べ<ruby>物<rt>もの</rt></ruby>".
Proof. split; reflexivity. Qed.

(** ** Furigana: the fallback *)

Lemma walk_app reading0 readingNorm pre post st :
  walk reading0 readingNorm (pre ++ post) st
  = walk reading0 readingNorm pre st ≫= walk reading0 readingNorm post.
Proof.
  revert st. induction pre as [|group pre IH]; intros st; cbn [walk app]; [done|].
  destruct (walkStep reading0 readingNorm st group) as [st'|]; [apply IH | done].
Qed.

Lemma walkStep_not_found reading0 readingNorm segments readingPos group :
  isKana group = true ->
  indexOf readingNorm (katakanaToHiragana (gtext group)) readingPos < 0 ->
  walkStep reading0 readingNorm (segments, readingPos) group = None.
Proof.
  intros Hkana Hidx. unfold walkStep. rewrite Hkana.
  by replace (0 <=? _) with false by (symmetry; apply Z.leb_gt; lia).
Qed.

(** C4.  When the matching loop runs (the reading is neither empty nor the
    expression, and the expression is not all kana) and, having processed
    the runs [pre], reaches a kana run whose normalized text does not occur
    in the normalized reading at or after the cursor, [distributeFurigana]
    returns the single segment made of the whole expression and the whole
    original reading. *)
Theorem distributeFurigana_fallback
    (expression reading0 : jsstring) (pre post : list Group) (group : Group)
    (segments : list FuriganaSegment) (readingPos : Z) :
  reading0 <> expression ->
  reading0 <> [] ->
  isAllKana expression = false ->
  splitGroups expression = pre ++ group :: post ->
  walk reading0 (katakanaToHiragana reading0) pre ([], 0)
    = Some (segments, readingPos) ->
  isKana group = true ->
  indexOf (katakanaToHiragana reading0) (katakanaToHiragana (gtext group))
          readingPos < 0 ->
  distributeFurigana expression reading0
  = [{| text := expression; reading := reading0 |}].
Proof.
  intros Hneq Hnonempty Hkana Hsplit Hpre Hgroup Hidx.
  unfold distributeFurigana.
  replace (jseq reading0 expression) with false
    by (symmetry; apply not_true_iff_false; by rewrite jseq_eq).
  replace (truthy reading0) with true by (by destruct reading0).
  rewrite Hkana. cbn [orb negb].
  destruct (length (splitGroups expression) =? 1)%nat; [done|].
  rewrite Hsplit, walk_app, Hpre. cbn [mbind option_bind walk].
  by rewrite (walkStep_not_found _ _ _ _ _ Hgroup Hidx).
Qed.

Lemma distributeFurigana_fallback_witness :
  distributeFurigana (js "食べる") (js "たくる")
  = [{| text := js "食べる"; reading := js "たくる" |}].
Proof.
  apply (distributeFurigana_fallback (js "食べる") (js "たくる")
           [{| gtext := js "食"; isKana := false |}] []
           {| gtext := js "べる"; isKana := true |}
           [{| text := js "食"; reading := [] |}] 0).
  - by vm_compute.
  - by vm_compute.
  - reflexivity.
  - reflexivity.
  - reflexivity.
  - reflexivity.
  - by vm_compute.
Defined.

(** ** Pitch accent *)

Lemma includes_elem_of (arr : list jsstring) (x : jsstring) :
  includes arr x = true <-> x ∈ arr.
Proof.
  unfold includes. rewrite existsb_exists. split.
  - intros (y & Hin & Heq). apply jseq_eq in Heq as ->. by apply list_elem_of_In.
  - intros Hin. exists x. split; [by apply list_elem_of_In | apply jseq_refl].
Qed.

Lemma includes_not_elem_of (arr : list jsstring) (x : jsstring) :
  includes arr x = false <-> x ∉ arr.
Proof. rewrite <- includes_elem_of. by destruct (includes arr x). Qed.

Lemma countMorae_loop (cs : list jsstring) (count : Z) :
  foldl (fun count char =>
           if negb (includes smallKana char) then count + 1 else count) count cs
  = count + Z.of_nat (length (filter (fun char => char ∉ smallKana) cs)).
Proof.
  revert count. induction cs as [|char cs IH]; intros count; cbn [foldl].
  - simpl. lia.
  - rewrite IH. destruct (includes smallKana char) eqn:Hin; cbn [negb].
    + apply includes_elem_of in Hin. rewrite filter_cons_False by (intros H; by apply H). lia.
    + apply includes_not_elem_of in Hin. rewrite filter_cons_True by done. simpl length. lia.
Qed.

(** The mora count is the number of characters of the reading that are not
    small kana. *)
Lemma countMorae_filter (reading0 : jsstring) :
  countMorae reading0
  = Z.of_nat (length (filter (fun char => char ∉ smallKana) (chars reading0))).
Proof. unfold countMorae. by rewrite countMorae_loop. Qed.

(** C5.  The classifier answers heiban at drop position 0, atamadaka at 1,
    odaka at any other position equal to the mora count and nakadaka
    everywhere else, where the mora count is the number of characters of
    the reading outside the small-kana set; "たべる" has three morae and is
    classified heiban, atamadaka, nakadaka, odaka at 0, 1, 2, 3. *)
Theorem getPitchCategory_spec (reading0 : jsstring) (position : Z) :
  (position = 0 -> getPitchCategory reading0 position = js "heiban")
  /\ (position = 1 -> getPitchCategory reading0 position = js "atamadaka")
  /\ (position <> 0 -> position <> 1 -> position = countMorae reading0 ->
      getPitchCategory reading0 position = js "odaka")
  /\ (position <> 0 -> position <> 1 -> position <> countMorae reading0 ->
      getPitchCategory reading0 position = js "nakadaka")
  /\ countMorae reading0
     = Z.of_nat (length (filter (fun char => char ∉ smallKana) (chars reading0)))
  /\ countMorae (js "たべる") = 3
  /\ getPitchCategory (js "たべる") 0 = js "heiban"
  /\ getPitchCategory (js "たべる") 1 = js "atamadaka"
  /\ getPitchCategory (js "たべる") 3 = js "odaka"
  /\ getPitchCategory (js "たべる") 2 = js "nakadaka".
Proof.
  unfold getPitchCategory.
  repeat split; try reflexivity.
  - by intros ->.
  - by intros ->.
  - intros H0 H1 Hm. apply Z.eqb_neq in H0, H1. rewrite H0, H1.
    apply Z.eqb_eq in Hm. by rewrite Hm.
  - intros H0 H1 Hm. apply Z.eqb_neq in H0, H1, Hm. by rewrite H0, H1, Hm.
  - apply countMorae_filter.
Qed.

Lemma getPitchCategory_spec_witness :
  getPitchCategory (js "きょう") 2 = js "odaka"
  /\ getPitchCategory (js "たべる") 2 = js "nakadaka".
Proof.
  split.
  - apply (proj1 (proj2 (proj2 (getPitchCategory_spec (js "きょう") 2))));
      [lia | lia | reflexivity].
  - apply (proj1 (proj2 (proj2 (proj2 (getPitchCategory_spec (js "たべる") 2)))));
      [lia | lia | by vm_compute].
Defined.

(** ** Gloss serialization *)

Lemma nonNativeCount_snoc (before : list Sense) (sense : Sense) :
  nonNativeCount (before ++ [sense])
  = if isNative sense then nonNativeCount before else nonNativeCount before + 1.
Proof.
  unfold nonNativeCount. rewrite filter_app, length_app.
  destruct (isNative sense) eqn:Hn.
  - rewrite filter_cons_False, filter_nil by (by rewrite Hn). simpl. lia.
  - rewrite filter_cons_True, filter_nil by done. simpl. lia.
Qed.

(** The loop of [serializeSensesHtml]: its running counter [enIndex] is one
    more than the number of senses passed that are not native-language. *)
Lemma htmlLoop (brief : bool) (senses : list Sense) :
  foldl (htmlStep brief) ([], 1) senses
  = (imap (fun i sense => htmlPrefix (take i senses) sense ++ senseText brief sense)
          senses,
     1 + nonNativeCount senses).
Proof.
  induction senses as [|sense senses IH] using rev_ind; [done|].
  rewrite foldl_snoc, IH. unfold htmlStep.
  rewrite nonNativeCount_snoc, imap_app. f_equal.
  - f_equal.
    + apply imap_ext. intros i s Hi. simpl.
      rewrite take_app_le; [done|]. apply lookup_lt_Some in Hi. lia.
    + simpl. rewrite Nat.add_0_r, take_app_length. unfold htmlPrefix.
      by destruct (isNative sense).
  - destruct (isNative sense); lia.
Qed.

Lemma isNative_spec (sense : Sense) :
  isNative sense = true
  <-> exists l, s_lang sense = Some l /\ l <> [] /\ l <> js "en".
Proof.
  unfold isNative. destruct (s_lang sense) as [l|];
    [|split; [done | by intros (l & Hl & _)]].
  rewrite andb_true_iff, negb_true_iff. split.
  - intros [Ht Hne]. exists l. repeat split; [by destruct l|].
    intros ->. by rewrite jseq_refl in Hne.
  - intros (l' & [= <-] & Hne & Hen). split; [by destruct l|].
    apply not_true_iff_false. by rewrite jseq_eq.
Qed.

(** C6 (as amended).  For two senses or more, the HTML serialization joins
    with a line break the senses, each prefixed with a bullet when its
    language tag is present, not empty and not "en", and otherwise with its
    number among the senses that are not so tagged; the plain serialization
    numbers every sense by its 1-based position. *)
Theorem serializeSenses_numbering (senses : list Sense) (brief : bool) :
  (2 <= length senses)%nat ->
  serializeSensesHtml senses brief
  = join (js "<br>")
      (imap (fun i sense => htmlPrefix (take i senses) sense ++ senseText brief sense)
            senses)
  /\ (forall sense, isNative sense = true
        <-> exists l, s_lang sense = Some l /\ l <> [] /\ l <> js "en")
  /\ serializeSensesPlain senses
     = join newline
         (imap (fun i sense =>
                  (js "(" ++ String_of_Z (Z.of_nat i + 1) ++ js ") ")
                  ++ glossesToStr sense)
               senses).
Proof.
  intros Hlen. destruct senses as [|s0 [|s1 senses]]; [simpl in Hlen; lia..|].
  repeat split.
  - unfold serializeSensesHtml. by rewrite htmlLoop.
  - apply isNative_spec.
  - apply isNative_spec.
  - unfold serializeSensesPlain.
    replace (1 <? Z.of_nat (length (s0 :: s1 :: senses))) with true; [done|].
    symmetry. apply Z.ltb_lt. simpl length. lia.
Qed.

Lemma serializeSenses_numbering_witness :
  serializeSensesHtml mixedSenses true = js "(1) cat<br>• Katze<br>(2) feline™"
  /\ serializeSensesPlain mixedSenses
     = js "(1) cat" ++ newline ++ js "(2) Katze" ++ newline ++ js "(3) feline™".
Proof.
  destruct (serializeSenses_numbering mixedSenses true) as (Hhtml & _ & Hplain).
  - simpl. lia.
  - split; [rewrite Hhtml | rewrite Hplain]; reflexivity.
Defined.

(** C6 as stated fails on a language tag that is present, is not "en", and
    is the empty string: the sense is numbered, not bulleted. *)
Lemma serializeSenses_numbering_counterexample :
  (exists l, s_lang <$> head emptyLangSenses = Some (Some l) /\ l <> js "en")
  /\ serializeSensesHtml emptyLangSenses true = js "(1) cat<br>(2) dog"
  /\ serializeSensesHtml emptyLangSenses true <> js "• cat<br>(1) dog".
Proof.
  split; [exists []; split; [reflexivity | by vm_compute]|].
  split; [reflexivity | by vm_compute].
Qed.

(** ** Template rendering *)

Lemma nameRun_length (t : jsstring) : (length (nameRun t) <= length t)%nat.
Proof. induction t as [|u t IH]; simpl; [lia|]. destruct (isNameChar u); simpl; lia. Qed.

Lemma nameRun_app_stop (t post : jsstring) (stop : Z) :
  isNameChar stop = false -> nameRun (t ++ stop :: post) = nameRun t.
Proof.
  intros Hstop. induction t as [|u t IH]; simpl.
  - by rewrite Hstop.
  - destruct (isNameChar u); [by rewrite IH | done].
Qed.

Lemma nameRun_all (run : jsstring) :
  forallb isNameChar run = true -> nameRun run = run.
Proof.
  induction run as [|u run IH]; simpl; [done|].
  intros [-> Hrun]%andb_true_iff. by rewrite IH.
Qed.

(** A match is made of code units of the text it is found in. *)
Lemma matchMarker_length (t markerName : jsstring) (len : nat) :
  matchMarker t = Some (markerName, len) -> (1 <= len <= length t)%nat.
Proof.
  unfold matchMarker. destruct t as [|open [|first rest]]; [done..|].
  destruct ((open =? 0x7B) && isWordChar first); [|done].
  destruct (drop (length (nameRun rest)) rest) as [|close tl] eqn:Hdrop; [done|].
  destruct (close =? 0x7D); [|done]. intros [= _ <-].
  assert (length (drop (length (nameRun rest)) rest) = S (length tl))
    as Hlen by (by rewrite Hdrop).
  rewrite length_drop in Hlen. simpl. lia.
Qed.

(** An opening brace ends every attempt to match that started before it. *)
Lemma matchMarker_app_brace (p post : jsstring) :
  p <> [] -> matchMarker (p ++ 0x7B :: post) = matchMarker p.
Proof.
  intros Hp. destruct p as [|open [|first rest]]; [done| |].
  - simpl. by rewrite andb_false_r.
  - cbn [app matchMarker].
    destruct ((open =? 0x7B) && isWordChar first); [|done].
    rewrite nameRun_app_stop by done.
    pose proof (nameRun_length rest) as Hlen.
    rewrite drop_app_le by done.
    destruct (drop (length (nameRun rest)) rest) as [|close tl]; done.
Qed.

Lemma replaceMarkers_skip replacer (p t : jsstring) :
  replaceMarkers replacer (length p) (p ++ t) = replaceMarkers replacer 0 t.
Proof.
  induction p as [|u p IH]; [by destruct t|]. simpl. apply IH.
Qed.

(** The text before an opening brace is rendered on its own. *)
Lemma replaceMarkers_app_brace replacer (p post : jsstring) (skip : nat) :
  (skip <= length p)%nat ->
  replaceMarkers replacer skip (p ++ 0x7B :: post)
  = replaceMarkers replacer skip p ++ replaceMarkers replacer 0 (0x7B :: post).
Proof.
  revert skip. induction p as [|u p IH]; intros skip Hskip.
  - simpl in Hskip. by replace skip with 0%nat by lia.
  - change ((u :: p) ++ 0x7B :: post) with (u :: (p ++ 0x7B :: post)).
    cbn [replaceMarkers]. destruct skip as [|skip].
    + change (u :: (p ++ 0x7B :: post)) with ((u :: p) ++ 0x7B :: post).
      rewrite matchMarker_app_brace by done.
      destruct (matchMarker (u :: p)) as [[markerName len]|] eqn:Hm.
      * apply matchMarker_length in Hm. simpl in Hm.
        rewrite IH by lia. by rewrite app_assoc.
      * rewrite IH by lia. done.
    + simpl in Hskip. apply IH. lia.
Qed.

Lemma matchMarker_marker (markerName post : jsstring) :
  isMarkerName markerName = true ->
  matchMarker (0x7B :: markerName ++ 0x7D :: post)
  = Some (markerName, (2 + length markerName)%nat).
Proof.
  destruct markerName as [|first run]; [done|].
  intros [Hfirst Hrun]%andb_true_iff.
  cbn [app matchMarker]. rewrite Hfirst. cbn [Z.eqb Pos.eqb andb].
  rewrite nameRun_app_stop, (nameRun_all _ Hrun) by done.
  rewrite drop_app_length. cbn [Z.eqb Pos.eqb]. reflexivity.
Qed.

Lemma nameRun_prefix (t : jsstring) :
  t = nameRun t ++ drop (length (nameRun t)) t
  /\ forallb isNameChar (nameRun t) = true.
Proof.
  induction t as [|u t [IHeq IHall]]; [done|]. simpl.
  destruct (isNameChar u) eqn:Hu; [|done].
  simpl. rewrite Hu, IHall. split; [by rewrite <- IHeq | done].
Qed.

(** The pattern matches at the head of a text exactly when the text starts
    with a well-formed marker name in braces; the name is then captured. *)
Lemma matchMarker_spec (t markerName : jsstring) (len : nat) :
  matchMarker t = Some (markerName, len)
  <-> isMarkerName markerName = true
      /\ len = (2 + length markerName)%nat
      /\ exists post, t = js "{" ++ markerName ++ js "}" ++ post.
Proof.
  change (js "{") with [0x7B]. change (js "}") with [0x7D]. split.
  - unfold matchMarker. destruct t as [|open [|first rest]]; [done..|].
    destruct (open =? 0x7B) eqn:Hopen; [|done]. apply Z.eqb_eq in Hopen as ->.
    destruct (isWordChar first) eqn:Hfirst; [|done]. cbn [andb].
    destruct (nameRun_prefix rest) as [Hrest Hall].
    destruct (drop (length (nameRun rest)) rest) as [|close tl]; [done|].
    destruct (close =? 0x7D) eqn:Hclose; [|done]. apply Z.eqb_eq in Hclose as ->.
    intros [= <- <-]. split; [simpl; by rewrite Hfirst, Hall|].
    split; [done|]. exists tl. cbn [app]. by rewrite <- Hrest.
  - intros (Hname & -> & post & ->). by apply matchMarker_marker.
Qed.

Lemma replaceMarkers_marker replacer (markerName post : jsstring) :
  isMarkerName markerName = true ->
  replaceMarkers replacer 0 (0x7B :: markerName ++ 0x7D :: post)
  = replacer markerName ++ replaceMarkers replacer 0 post.
Proof.
  intros Hname. cbn [replaceMarkers].
  rewrite (matchMarker_marker _ _ Hname). f_equal.
  replace (2 + length markerName - 1)%nat with (length (markerName ++ [0x7D]))
    by (rewrite length_app; simpl; lia).
  replace (markerName ++ 0x7D :: post) with ((markerName ++ [0x7D]) ++ post)
    by (by rewrite <- app_assoc).
  apply replaceMarkers_skip.
Qed.

(** Text in which the pattern matches nowhere is left as it is. *)
Lemma replaceMarkers_literal replacer (t : jsstring) :
  (forall i, matchMarker (drop i t) = None) ->
  replaceMarkers replacer 0 t = t.
Proof.
  induction t as [|u t IH]; intros Hno; [done|].
  cbn [replaceMarkers]. rewrite (Hno 0%nat : matchMarker (u :: t) = None).
  f_equal. apply IH. intros i. apply (Hno (S i)).
Qed.

Section RenderingProperties.

Variable nativeFunctionText : jsstring -> jsstring.

(** Every occurrence of a well-formed marker in braces is replaced with
    what the read of the marker map gives for its name, and the text on
    both sides is rendered independently. *)
Lemma renderFieldTemplate_marker (markerValues : gmap (list Z) (list Z))
    (pre markerName post : jsstring) :
  isMarkerName markerName = true ->
  renderFieldTemplate nativeFunctionText
    (pre ++ js "{" ++ markerName ++ js "}" ++ post) markerValues
  = renderFieldTemplate nativeFunctionText pre markerValues
    ++ replacementText nativeFunctionText (getProperty markerValues markerName)
    ++ renderFieldTemplate nativeFunctionText post markerValues.
Proof.
  intros Hname. unfold renderFieldTemplate.
  change (js "{") with [0x7B]. change (js "}") with [0x7D].
  cbn [app]. rewrite replaceMarkers_app_brace by lia.
  by rewrite replaceMarkers_marker.
Qed.

(** C7.  What the renderer puts in the place of a well-formed marker name in
    braces: the value mapped to the name; for a name that is not a key of
    the map, the empty string, unless the name is that of a property of
    [Object.prototype]: then the inherited value, converted to a string, is
    inserted.  So [{__proto__}] is rendered as [[object Object]] and
    [{constructor}] as the text of a built-in function, not as the empty
    string.  The inserted text is not scanned again, and the examples of
    the specification evaluate as stated. *)
Theorem renderFieldTemplate_inherited :
  (forall (markerValues : gmap (list Z) (list Z)) (pre markerName post : jsstring),
      isMarkerName markerName = true ->
      renderFieldTemplate nativeFunctionText
        (pre ++ js "{" ++ markerName ++ js "}" ++ post) markerValues
      = renderFieldTemplate nativeFunctionText pre markerValues
        ++ match markerValues !! markerName with
           | Some value => value
           | None =>
             if jseq markerName (js "__proto__") then js "[object Object]"
             else if includes OBJECT_PROTOTYPE_FUNCTIONS markerName
                  then nativeFunctionText markerName
                  else []
           end
        ++ renderFieldTemplate nativeFunctionText post markerValues)
  /\ renderFieldTemplate nativeFunctionText (js "{__proto__}") (obj [])
     = js "[object Object]"
  /\ renderFieldTemplate nativeFunctionText (js "{constructor}") (obj [])
     = nativeFunctionText (js "constructor")
  /\ renderFieldTemplate nativeFunctionText (js "{expression}: {reading}")
       (obj [(js "expression", js "猫"); (js "reading", js "ねこ")])
     = js "猫: ねこ"
  /\ renderFieldTemplate nativeFunctionText (js "{unknown}") (obj []) = []
  /\ renderFieldTemplate nativeFunctionText (js "{a}{b}")
       (obj [(js "a", js "{b}"); (js "b", js "x")])
     = js "{b}x".
Proof.
  split.
  { intros markerValues pre markerName post Hname.
    rewrite renderFieldTemplate_marker by done. unfold getProperty.
    destruct (markerValues !! markerName); [done|].
    destruct (jseq markerName (js "__proto__")); [done|].
    by destruct (includes OBJECT_PROTOTYPE_FUNCTIONS markerName). }
  split; [reflexivity|].
  split; [apply app_nil_r|].
  split; [reflexivity|]. split; reflexivity.
Qed.

End RenderingProperties.

Lemma renderFieldTemplate_inherited_witness :
  renderFieldTemplate v8FunctionText
    (js "<b>" ++ js "{" ++ js "toString" ++ js "}" ++ js "</b>")
    (obj [(js "tags-pos", js "n")])
  = js "<b>function toString() { [native code] }</b>".
Proof.
  rewrite (proj1 (renderFieldTemplate_inherited v8FunctionText)) by reflexivity.
  reflexivity.
Defined.

(** ** Objects as finite maps *)

Lemma foldl_insert_lookup {V W} (f : V -> W) (l : list (list Z * V))
    (m : gmap (list Z) W) (k : list Z) :
  NoDup l.*1 ->
  foldl (fun acc kv => <[kv.1 := f kv.2]> acc) m l !! k
  = match (list_to_map l : gmap (list Z) V) !! k with
    | Some v => Some (f v)
    | None => m !! k
    end.
Proof.
  revert m. induction l as [|[k0 v0] l IH]; intros m Hnodup; [done|].
  apply NoDup_cons in Hnodup as [Hfresh Hnodup].
  cbn [foldl fst snd]. rewrite IH by done.
  change (list_to_map ((k0, v0) :: l) : gmap (list Z) V)
    with (<[k0 := v0]> (list_to_map l : gmap (list Z) V)).
  destruct (decide (k0 = k)) as [->|Hne].
  - rewrite lookup_insert_eq.
    rewrite (not_elem_of_list_to_map_1 l k Hfresh). by rewrite lookup_insert_eq.
  - rewrite !lookup_insert_ne by done. done.
Qed.

Lemma setProperty_lookup_ne (o : gmap (list Z) (list Z)) (key value k : jsstring) :
  key <> k -> setProperty o key value !! k = o !! k.
Proof.
  intros Hne. unfold setProperty.
  destruct (o !! key); [by rewrite lookup_insert_ne|].
  destruct (jseq key (js "__proto__")); [done|]. by rewrite lookup_insert_ne.
Qed.

(** A loop of assignments with distinct keys: an own property is updated,
    a new key becomes an own property unless it is [__proto__]. *)
Lemma foldl_setProperty_lookup {V} (f : V -> jsstring) (l : list (list Z * V))
    (m : gmap (list Z) (list Z)) (k : list Z) :
  NoDup l.*1 ->
  foldl (fun acc kv => setProperty acc kv.1 (f kv.2)) m l !! k
  = match m !! k with
    | Some old => Some (default old (f <$> (list_to_map l : gmap (list Z) V) !! k))
    | None =>
      if jseq k (js "__proto__") then None
      else f <$> (list_to_map l : gmap (list Z) V) !! k
    end.
Proof.
  revert m. induction l as [|[k0 v0] l IH]; intros m Hnodup.
  { cbn [foldl]. change (list_to_map [] : gmap (list Z) V) with (∅ : gmap (list Z) V).
    rewrite lookup_empty. destruct (m !! k); [done|].
    by destruct (jseq k (js "__proto__")). }
  apply NoDup_cons in Hnodup as [Hfresh Hnodup].
  cbn [foldl fst snd]. rewrite IH by done.
  change (list_to_map ((k0, v0) :: l) : gmap (list Z) V)
    with (<[k0 := v0]> (list_to_map l : gmap (list Z) V)).
  destruct (decide (k0 = k)) as [->|Hne].
  - rewrite lookup_insert_eq, (not_elem_of_list_to_map_1 l k Hfresh).
    unfold setProperty. destruct (m !! k) as [old|] eqn:Hold.
    + by rewrite lookup_insert_eq.
    + destruct (jseq k (js "__proto__")) eqn:Hproto.
      * by rewrite Hold.
      * by rewrite lookup_insert_eq.
  - by rewrite setProperty_lookup_ne, lookup_insert_ne.
Qed.

Lemma renderFields_lookup (nativeFunctionText : jsstring -> jsstring)
    (templates markerValues : gmap (list Z) (list Z)) (fieldName : jsstring) :
  renderFields nativeFunctionText templates markerValues !! fieldName
  = if jseq fieldName (js "__proto__") then None
    else (fun template =>
            renderFieldTemplate nativeFunctionText template markerValues)
           <$> templates !! fieldName.
Proof.
  unfold renderFields.
  rewrite (foldl_setProperty_lookup
             (fun t => renderFieldTemplate nativeFunctionText t markerValues))
    by apply NoDup_fst_map_to_list.
  by rewrite list_to_map_to_list, lookup_empty.
Qed.

Lemma applyOverrides_lookup (markerValues overrides : gmap (list Z) (list Z))
    (key : jsstring) :
  applyOverrides markerValues (Some overrides) !! key
  = match markerValues !! key with
    | Some old => Some (default old (overrides !! key))
    | None => if jseq key (js "__proto__") then None else overrides !! key
    end.
Proof.
  unfold applyOverrides.
  rewrite (foldl_setProperty_lookup (fun v => v)) by apply NoDup_fst_map_to_list.
  rewrite list_to_map_to_list. by destruct (overrides !! key).
Qed.

Section BuilderProperties.

Variable deinflectL10NKeys : Z -> option jsstring.
Variable nativeFunctionText : jsstring -> jsstring.

(** ** Note assembly *)

(** C8.  The note has the deck and model of the settings, the tags of the
    settings, [allowDuplicate] the negation of [checkForDuplicates], the
    configured duplicate scope, and scope options with the target deck,
    [checkChildren] true and [checkAllModels] false.  Its fields are the
    field templates whose name is not [__proto__], each rendered from its
    own template and the marker values; a template stored under the name
    [__proto__] gives no field: with that template alone the note has no
    field at all. *)
Theorem buildAnkiNote_record (entry : CopyEntry) (settings : AnkiSettings)
    (context : option AnkiNoteContext)
    (markerOverrides : option (gmap (list Z) (list Z))) :
  let note :=
    buildAnkiNote deinflectL10NKeys nativeFunctionText entry settings context
                  markerOverrides in
  let markerValues :=
    applyOverrides (buildMarkerValues deinflectL10NKeys entry context)
                   markerOverrides in
  (forall fieldName : jsstring,
      note_fields note !! fieldName
      = if jseq fieldName (js "__proto__") then None
        else (fun template =>
                renderFieldTemplate nativeFunctionText template markerValues)
               <$> fieldTemplates settings !! fieldName)
  /\ note_deckName note = deckName settings
  /\ note_modelName note = modelName settings
  /\ note_tags note = tags settings
  /\ note_options note
     = Some {| allowDuplicate := negb (checkForDuplicates settings);
               opt_duplicateScope := Some (duplicateScope settings);
               duplicateScopeOptions :=
                 Some {| scope_deckName := Some (deckName settings);
                         checkChildren := Some true;
                         checkAllModels := Some false |} |}
  /\ note_fields
       (buildAnkiNote deinflectL10NKeys nativeFunctionText entry
          (settingsWith {[ js "__proto__" := js "{expression}" ]})
          context markerOverrides)
     = ∅.
Proof.
  cbn zeta. split; [intros fieldName; apply renderFields_lookup|].
  do 4 (split; [done|]).
  apply map_eq. intros fieldName. cbn [buildAnkiNote note_fields].
  rewrite renderFields_lookup, lookup_empty.
  destruct (jseq fieldName (js "__proto__")) eqn:Hname; [done|].
  cbn [settingsWith fieldTemplates]. rewrite lookup_singleton_ne; [done|].
  intros <-. by rewrite jseq_refl in Hname.
Qed.

(** ** Kanji entries *)

(** C9.  For a kanji entry the [furigana] and [furigana-plain] markers are
    the kanji character itself, without annotation, while the [reading]
    marker holds the on and kun readings. *)
Theorem buildKanjiMarkers_furigana (kj : KanjiResult)
    (context : option AnkiNoteContext) :
  let markerValues := buildMarkerValues deinflectL10NKeys (kanji kj) context in
  markerValues !! js "furigana" = Some (kj_c kj)
  /\ markerValues !! js "furigana-plain" = Some (kj_c kj)
  /\ markerValues !! js "reading"
     = Some (join (js "、") (default [] (kj_on kj) ++ default [] (kj_kun kj)))
  /\ buildMarkerValues deinflectL10NKeys (kanji nekoKanji) None !! js "reading"
     = Some (js "ビョウ、ねこ")
  /\ buildMarkerValues deinflectL10NKeys (kanji nekoKanji) None !! js "furigana"
     = Some (js "猫").
Proof. cbn zeta. repeat split; reflexivity. Qed.

(** ** Marker overrides *)

(** C10 (as amended).  An override under a key other than [__proto__]
    replaces the computed value of its key, whether or not the key belongs
    to the marker vocabulary, and when the key is a well-formed marker name
    its value is substituted for every occurrence of the key in braces in
    the field of every field template (of a field not called
    [__proto__]). *)
Theorem buildAnkiNote_overrides (entry : CopyEntry) (settings : AnkiSettings)
    (context : option AnkiNoteContext) (overrides : gmap (list Z) (list Z))
    (key value : jsstring) :
  overrides !! key = Some value ->
  key <> js "__proto__" ->
  let markerValues :=
    applyOverrides (buildMarkerValues deinflectL10NKeys entry context)
                   (Some overrides) in
  markerValues !! key = Some value
  /\ forall fieldName pre post : jsstring,
      isMarkerName key = true ->
      fieldName <> js "__proto__" ->
      fieldTemplates settings !! fieldName
        = Some (pre ++ js "{" ++ key ++ js "}" ++ post) ->
      note_fields (buildAnkiNote deinflectL10NKeys nativeFunctionText entry
                     settings context (Some overrides)) !! fieldName
      = Some (renderFieldTemplate nativeFunctionText pre markerValues ++ value
              ++ renderFieldTemplate nativeFunctionText post markerValues).
Proof.
  intros Hkey Hproto markerValues.
  assert (Hvalue : markerValues !! key = Some value).
  { unfold markerValues. rewrite applyOverrides_lookup, Hkey.
    destruct (buildMarkerValues deinflectL10NKeys entry context !! key); [done|].
    destruct (jseq key (js "__proto__")) eqn:Heq; [|done].
    by apply jseq_eq in Heq. }
  split; [done|]. intros fieldName pre post Hname Hfield Htemplate.
  cbn [buildAnkiNote note_fields].
  rewrite renderFields_lookup, Htemplate. cbn [fmap option_fmap option_map].
  fold markerValues.
  destruct (jseq fieldName (js "__proto__")) eqn:Heq;
    [by apply jseq_eq in Heq|].
  rewrite renderFieldTemplate_marker by done.
  unfold getProperty. by rewrite Hvalue.
Qed.

End BuilderProperties.

Lemma buildAnkiNote_overrides_witness :
  includes ANKI_FIELD_MARKERS (js "audio-file") = false
  /\ note_fields
       (buildAnkiNote noDeinflectKeys v8FunctionText (kanji nekoKanji)
          (settingsWith {[ js "Front" := js "{expression} {audio-file}!" ]})
          None (Some {[ js "audio-file" := js "[sound:neko.mp3]" ]}))
       !! js "Front"
     = Some (js "猫 [sound:neko.mp3]!").
Proof.
  split; [reflexivity|].
  destruct (buildAnkiNote_overrides noDeinflectKeys v8FunctionText (kanji nekoKanji)
              (settingsWith {[ js "Front" := js "{expression} {audio-file}!" ]})
              None {[ js "audio-file" := js "[sound:neko.mp3]" ]}
              (js "audio-file") (js "[sound:neko.mp3]")) as [_ Hfield].
  - reflexivity.
  - discriminate.
  - rewrite (Hfield (js "Front") (js "{expression} ") (js "!"));
      [reflexivity..|discriminate|reflexivity].
Defined.

(** C10 as stated fails on a key that is not a well-formed marker name:
    the key "a b" is in the override mapping, and its pattern in braces is
    left in the field.  It also fails on the key [__proto__], which is a
    well-formed marker name: the override does not become a marker value,
    and the pattern is replaced with the text of the inherited object. *)
Lemma buildAnkiNote_overrides_counterexample :
  ({[ js "a b" := js "X" ]} : gmap (list Z) (list Z)) !! js "a b" = Some (js "X")
  /\ fieldTemplates (settingsWith {[ js "Front" := js "{a b}" ]}) !! js "Front"
     = Some ([] ++ js "{" ++ js "a b" ++ js "}" ++ [])
  /\ note_fields
       (buildAnkiNote noDeinflectKeys v8FunctionText (kanji nekoKanji)
          (settingsWith {[ js "Front" := js "{a b}" ]})
          None (Some {[ js "a b" := js "X" ]}))
       !! js "Front"
     = Some (js "{a b}")
  /\ js "{a b}" <> js "X"
  /\ applyOverrides (buildMarkerValues noDeinflectKeys (kanji nekoKanji) None)
       (Some {[ js "__proto__" := js "X" ]}) !! js "__proto__"
     = None
  /\ note_fields
       (buildAnkiNote noDeinflectKeys v8FunctionText (kanji nekoKanji)
          (settingsWith {[ js "Front" := js "{__proto__}" ]})
          None (Some {[ js "__proto__" := js "X" ]}))
       !! js "Front"
     = Some (js "[object Object]")
  /\ js "[object Object]" <> js "X".
Proof.
  split; [|split; [|split; [|split; [|split; [|split]]]]]; by vm_compute.
Qed.

(** ** The marker vocabulary and the word markers *)

Section MarkerProperties.

Variable deinflectL10NKeys : Z -> option jsstring.

(** C2.  The markers of the vocabulary [ANKI_FIELD_MARKERS] that are not
    keys of the marker map: the four kanji-specific ones for every word
    entry, seventeen for every kanji entry, twenty-one for every name
    entry.  The maps do not contain every marker name of the vocabulary. *)
Theorem buildMarkerValues_missing_markers (w : WordResult) (kj : KanjiResult)
    (nm : NameResult) (context : option AnkiNoteContext) :
  filter (fun marker =>
            buildMarkerValues deinflectL10NKeys (word w) context !! marker = None)
         ANKI_FIELD_MARKERS
  = [js "character"; js "onyomi"; js "kunyomi"; js "stroke-count"]
  /\ filter (fun marker =>
               buildMarkerValues deinflectL10NKeys (kanji kj) context !! marker = None)
            ANKI_FIELD_MARKERS
     = [js "glossary-no-dictionary"; js "glossary-plain-no-dictionary";
        js "glossary-first-no-dictionary"; js "pitch-accent-graphs";
        js "pitch-accent-graphs-jj"; js "sentence-furigana";
        js "sentence-furigana-plain"; js "cloze-body"; js "cloze-body-kana";
        js "cloze-prefix"; js "cloze-suffix"; js "screenshot";
        js "clipboard-image"; js "clipboard-text"; js "phonetic-transcriptions";
        js "dictionary"; js "dictionary-alias"]
  /\ filter (fun marker =>
               buildMarkerValues deinflectL10NKeys (name nm) context !! marker = None)
            ANKI_FIELD_MARKERS
     = [js "glossary-no-dictionary"; js "glossary-plain-no-dictionary";
        js "glossary-first-no-dictionary"; js "pitch-accent-graphs";
        js "pitch-accent-graphs-jj"; js "sentence-furigana";
        js "sentence-furigana-plain"; js "cloze-body"; js "cloze-body-kana";
        js "cloze-prefix"; js "cloze-suffix"; js "screenshot";
        js "clipboard-image"; js "clipboard-text"; js "phonetic-transcriptions";
        js "dictionary"; js "dictionary-alias";
        js "character"; js "onyomi"; js "kunyomi"; js "stroke-count"].
Proof. split; [|split]; vm_compute; reflexivity. Qed.

(** A marker that is not a key, and not the name of a property of
    [Object.prototype], still renders as the empty string. *)
Lemma renderFieldTemplate_absent_marker (nativeFunctionText : jsstring -> jsstring)
    (markerValues : gmap (list Z) (list Z)) (marker : jsstring) :
  isMarkerName marker = true ->
  markerValues !! marker = None ->
  jseq marker (js "__proto__") = false ->
  includes OBJECT_PROTOTYPE_FUNCTIONS marker = false ->
  renderFieldTemplate nativeFunctionText (js "{" ++ marker ++ js "}") markerValues
  = [].
Proof.
  intros Hname Habsent Hproto Hfunction.
  pose proof (renderFieldTemplate_marker nativeFunctionText markerValues
                [] marker [] Hname) as H.
  rewrite app_nil_r in H. cbn [app] in H.
  rewrite H. unfold getProperty. rewrite Habsent, Hproto, Hfunction. reflexivity.
Qed.

(** The [expression] and [reading] markers of a word, as computed. *)
Lemma buildWordMarkers_expression_reading (w : WordResult)
    (context : option AnkiNoteContext) :
  let markerValues := buildWordMarkers deinflectL10NKeys w context in
  let kanjiHeadwords :=
    filter (fun k => notFlagged (js "sK") (k_i k) = true) (default [] (w_k w)) in
  let readings := filter (fun r => notFlagged (js "sk") (r_i r) = true) (w_r w) in
  markerValues !! js "reading" = Some (orEmpty (r_ent <$> head readings))
  /\ markerValues !! js "expression"
     = Some (match kanjiHeadwords with
             | k0 :: _ => k_ent k0
             | [] => orEmpty (r_ent <$> head (w_r w))
             end).
Proof.
  cbn zeta. split; [reflexivity|].
  destruct w as [[ks|] rs ss chains rank]; reflexivity.
Qed.

End MarkerProperties.

(** C3.  The word has no kanji headword and its first reading is flagged
    search-only kana: the [reading] marker is the first reading that is not
    flagged, and the [expression] marker is the flagged first reading, not
    the first reading that is not flagged. *)
Theorem buildWordMarkers_sk_expression :
  buildWordMarkers noDeinflectKeys skFirstWord None !! js "reading"
  = Some (js "あっぷ")
  /\ buildWordMarkers noDeinflectKeys skFirstWord None !! js "expression"
     = Some (js "アップ")
  /\ js "アップ" <> js "あっぷ".
Proof. split; [|split]; by vm_compute. Qed.

(** ** Kana normalization *)

Lemma foldl_app_concat {A} (f : A -> jsstring) (cs : list A) (acc : jsstring) :
  foldl (fun result c => result ++ f c) acc cs = acc ++ concat (map f cs).
Proof.
  revert acc. induction cs as [|c cs IH]; intros acc; simpl.
  - by rewrite app_nil_r.
  - by rewrite IH, app_assoc.
Qed.

Lemma katakanaToHiraganaChar_single (u : Z) :
  katakanaToHiraganaChar [u] = [hiraganaUnit u].
Proof.
  unfold katakanaToHiraganaChar, hiraganaUnit, fromCodePoint. simpl.
  destruct ((0x30a1 <=? u) && (u <=? 0x30f6)) eqn:E; [|done].
  apply andb_true_iff in E as [?%Z.leb_le ?%Z.leb_le].
  by replace (u - 0x60 <? 0x10000) with true by (symmetry; apply Z.ltb_lt; lia).
Qed.

Lemma surrogate_hiraganaUnit (u : Z) :
  isHighSurrogate u || isLowSurrogate u = true -> hiraganaUnit u = u.
Proof.
  unfold isHighSurrogate, isLowSurrogate, hiraganaUnit. intros H.
  replace ((0x30a1 <=? u) && (u <=? 0x30f6)) with false; [done|].
  symmetry. apply andb_false_iff. right. apply Z.leb_gt.
  apply orb_true_iff in H as [H|H]; apply andb_true_iff in H as [?%Z.leb_le _]; lia.
Qed.

Lemma katakanaToHiraganaChar_pair (h l : Z) :
  isHighSurrogate h && isLowSurrogate l = true ->
  katakanaToHiraganaChar [h; l] = [hiraganaUnit h; hiraganaUnit l].
Proof.
  intros Hpair. unfold katakanaToHiraganaChar. simpl. rewrite Hpair.
  apply andb_true_iff in Hpair as [Hh Hl].
  rewrite !surrogate_hiraganaUnit by (rewrite ?Hh, ?Hl, ?orb_true_r; done).
  unfold isHighSurrogate, isLowSurrogate in *.
  apply andb_true_iff in Hh as [?%Z.leb_le ?%Z.leb_le].
  apply andb_true_iff in Hl as [?%Z.leb_le ?%Z.leb_le].
  replace (_ && _) with false; [done|].
  symmetry. apply andb_false_iff. right. apply Z.leb_gt. lia.
Qed.

(** The normalization works unit by unit: the characters it changes are
    single code units, and surrogate pairs are left alone. *)
Lemma katakanaToHiragana_map (s : jsstring) :
  katakanaToHiragana s = map hiraganaUnit s.
Proof.
  unfold katakanaToHiragana. rewrite foldl_app_concat. cbn [app].
  remember (length s) as n eqn:Hn.
  revert s Hn. induction n as [n IH] using lt_wf_ind. intros s Hn.
  destruct s as [|h [|l t]]; [done | |].
  - cbn [chars map concat]. by rewrite katakanaToHiraganaChar_single.
  - rewrite chars_cons2.
    destruct (isHighSurrogate h && isLowSurrogate l) eqn:Hpair; cbn [map concat].
    + rewrite katakanaToHiraganaChar_pair by done. cbn [app]. do 2 f_equal.
      apply (IH (length t)); [subst n; simpl; lia | done].
    + rewrite katakanaToHiraganaChar_single. cbn [app]. f_equal.
      apply (IH (length (l :: t))); [subst n; simpl; lia | done].
Qed.

Lemma hiraganaUnit_idem (u : Z) : hiraganaUnit (hiraganaUnit u) = hiraganaUnit u.
Proof.
  unfold hiraganaUnit.
  destruct ((0x30a1 <=? u) && (u <=? 0x30f6)) eqn:E; [|by rewrite E].
  apply andb_true_iff in E as [?%Z.leb_le ?%Z.leb_le].
  replace ((0x30a1 <=? u - 0x60) && (u - 0x60 <=? 0x30f6)) with false; [done|].
  symmetry. apply andb_false_iff. left. apply Z.leb_gt. lia.
Qed.

(** X1.  Normalizing a string keeps its length in code units, and the
    unit at every index is the normalization of the unit of the original:
    an index found in the normalized reading is the same position of the
    original reading. *)
Theorem katakanaToHiragana_length (s : jsstring) :
  jslen (katakanaToHiragana s) = jslen s
  /\ forall i : nat, katakanaToHiragana s !! i = hiraganaUnit <$> s !! i.
Proof.
  rewrite katakanaToHiragana_map. split.
  - unfold jslen. by rewrite length_map.
  - intros i. apply list_lookup_fmap.
Qed.

(** X2.  Normalizing twice is normalizing once. *)
Theorem katakanaToHiragana_idempotent (s : jsstring) :
  katakanaToHiragana (katakanaToHiragana s) = katakanaToHiragana s.
Proof.
  rewrite !katakanaToHiragana_map, map_map.
  apply map_ext. intros u. apply hiraganaUnit_idem.
Qed.

Lemma chars_isChar (s : jsstring) : Forall isChar (chars s).
Proof.
  remember (length s) as n eqn:Hn.
  revert s Hn. induction n as [n IH] using lt_wf_ind. intros s Hn.
  destruct s as [|h [|l t]]; [by constructor | |].
  - repeat constructor.
  - rewrite chars_cons2.
    destruct (isHighSurrogate h && isLowSurrogate l) eqn:Hpair; constructor.
    + by constructor.
    + apply (IH (length t)); [subst n; simpl; lia | done].
    + constructor.
    + apply (IH (length (l :: t))); [subst n; simpl; lia | done].
Qed.

Lemma hiraganaUnit_surrogate (u : Z) :
  isHighSurrogate (hiraganaUnit u) = isHighSurrogate u
  /\ isLowSurrogate (hiraganaUnit u) = isLowSurrogate u.
Proof.
  unfold hiraganaUnit, isHighSurrogate, isLowSurrogate.
  destruct ((0x30a1 <=? u) && (u <=? 0x30f6)) eqn:E; [|done].
  apply andb_true_iff in E as [?%Z.leb_le ?%Z.leb_le].
  split; symmetry.
  - replace (0xD800 <=? u) with false by (symmetry; apply Z.leb_gt; lia).
    replace (0xD800 <=? u - 0x60) with false by (symmetry; apply Z.leb_gt; lia). done.
  - replace (0xDC00 <=? u) with false by (symmetry; apply Z.leb_gt; lia).
    replace (0xDC00 <=? u - 0x60) with false by (symmetry; apply Z.leb_gt; lia). done.
Qed.

Lemma chars_map_hiraganaUnit (s : jsstring) :
  chars (map hiraganaUnit s) = map (map hiraganaUnit) (chars s).
Proof.
  remember (length s) as n eqn:Hn.
  revert s Hn. induction n as [n IH] using lt_wf_ind. intros s Hn.
  destruct s as [|h [|l t]]; [done | done |].
  cbn [map]. rewrite !chars_cons2.
  destruct (hiraganaUnit_surrogate h) as [-> _].
  destruct (hiraganaUnit_surrogate l) as [_ ->].
  destruct (isHighSurrogate h && isLowSurrogate l); cbn [map]; f_equal.
  - apply (IH (length t)); [subst n; simpl; lia | done].
  - apply (IH (length (l :: t)) ltac:(subst n; simpl; lia) (l :: t) eq_refl).
Qed.

Lemma isKanaChar_hiraganaUnit (c : jsstring) :
  isChar c -> isKanaChar (map hiraganaUnit c) = isKanaChar c.
Proof.
  intros [u|h l Hpair].
  - unfold isKanaChar, hiraganaUnit. simpl.
    destruct ((0x30a1 <=? u) && (u <=? 0x30f6)) eqn:E; [|done].
    apply andb_true_iff in E as [?%Z.leb_le ?%Z.leb_le].
    replace ((0x3040 <=? u - 0x60) && (u - 0x60 <=? 0x309f)) with true
      by (symmetry; apply andb_true_iff; split; apply Z.leb_le; lia).
    replace ((0x30a0 <=? u) && (u <=? 0x30ff)) with true
      by (symmetry; apply andb_true_iff; split; apply Z.leb_le; lia).
    by rewrite orb_true_r.
  - apply andb_true_iff in Hpair as [Hh Hl]. cbn [map].
    by rewrite !surrogate_hiraganaUnit by (rewrite ?Hh, ?Hl, ?orb_true_r; done).
Qed.

(** X3.  Normalization keeps the kind of every character: the normalized
    string is all kana exactly when the original is. *)
Theorem isAllKana_katakanaToHiragana (s : jsstring) :
  isAllKana (katakanaToHiragana s) = isAllKana s.
Proof.
  unfold isAllKana, jslen.
  rewrite katakanaToHiragana_map, chars_map_hiraganaUnit, length_map. f_equal.
  pose proof (chars_isChar s) as Hchars.
  induction Hchars as [|c cs Hc _ IH]; [done|].
  cbn [map forallb]. by rewrite isKanaChar_hiraganaUnit, IH.
Qed.

(** ** More on templates, overrides and marker maps *)

(** X9.  A template without an opening brace is rendered as it is, whatever
    the marker values. *)
Theorem renderFieldTemplate_no_brace (nativeFunctionText : jsstring -> jsstring)
    (template : jsstring) (markerValues : gmap (list Z) (list Z)) :
  0x7B ∉ template ->
  renderFieldTemplate nativeFunctionText template markerValues = template.
Proof.
  intros Hno. apply replaceMarkers_literal. intros i.
  destruct (drop i template) as [|open [|first rest]] eqn:Hdrop; [done..|].
  unfold matchMarker.
  assert (Hopen : open <> 0x7B).
  { intros ->. apply Hno. apply (list_elem_of_lookup_2 _ i).
    rewrite <- (Nat.add_0_r i), <- lookup_drop, Hdrop. done. }
  by replace (open =? 0x7B) with false by (symmetry; by apply Z.eqb_neq).
Qed.

Lemma renderFieldTemplate_no_brace_witness :
  renderFieldTemplate v8FunctionText (js "plain text } - only")
    (obj [(js "only", js "x")])
  = js "plain text } - only".
Proof.
  apply renderFieldTemplate_no_brace.
  intros Hin. vm_compute in Hin. repeat (apply elem_of_cons in Hin as [Hin|Hin]; [done|]).
  by apply elem_of_nil in Hin.
Defined.

(** X10.  On a marker map without an own property [__proto__], as the
    builders make them, applying overrides is the union of the overrides,
    without their key [__proto__], and the marker map, in which the
    overrides win: a marker that is not overridden keeps its computed
    value, and without overrides nothing changes. *)
Theorem applyOverrides_union (markerValues overrides : gmap (list Z) (list Z)) :
  markerValues !! js "__proto__" = None ->
  applyOverrides markerValues (Some overrides)
  = delete (js "__proto__") overrides ∪ markerValues
  /\ applyOverrides markerValues None = markerValues
  /\ forall key, overrides !! key = None ->
       applyOverrides markerValues (Some overrides) !! key = markerValues !! key.
Proof.
  intros Hown. split; [|split; [done|]].
  - apply map_eq. intros key. rewrite applyOverrides_lookup, lookup_union.
    destruct (jseq key (js "__proto__")) eqn:Hkey.
    + apply jseq_eq in Hkey as ->. by rewrite Hown, lookup_delete_eq.
    + assert (key <> js "__proto__") as Hne.
      { intros ->. by rewrite jseq_refl in Hkey. }
      rewrite lookup_delete_ne by done.
      destruct (overrides !! key), (markerValues !! key); done.
  - intros key Hkey. rewrite applyOverrides_lookup, Hkey.
    destruct (markerValues !! key); [done|].
    by destruct (jseq key (js "__proto__")).
Qed.

Lemma applyOverrides_union_witness :
  applyOverrides (obj [(js "audio", []); (js "url", js "u")])
                 (Some (obj [(js "audio", js "a.mp3"); (js "__proto__", js "p")]))
  = obj [(js "audio", js "a.mp3"); (js "url", js "u")].
Proof.
  destruct (applyOverrides_union
              (obj [(js "audio", []); (js "url", js "u")])
              (obj [(js "audio", js "a.mp3"); (js "__proto__", js "p")]))
    as [Hunion _]; [reflexivity|].
  rewrite Hunion. by vm_compute.
Defined.

Lemma foldl_insert_lookup_Some (l : list (list Z * list Z))
    (m : gmap (list Z) (list Z)) (k v : list Z) :
  foldl (fun o kv => <[kv.1 := kv.2]> o) m l !! k = Some v ->
  k ∈ l.*1 \/ m !! k = Some v.
Proof.
  revert m. induction l as [|[k0 v0] l IH]; intros m; cbn [foldl]; [by right|].
  intros [Hin|Hm]%IH.
  - left. by apply list_elem_of_further.
  - cbn [fst snd] in Hm. destruct (decide (k0 = k)) as [->|Hne].
    + left. apply list_elem_of_here.
    + right. by rewrite lookup_insert_ne in Hm.
Qed.

Lemma obj_key_elem_of (l : list (list Z * list Z)) (vocabulary : list jsstring)
    (k v : list Z) :
  forallb (includes vocabulary) l.*1 = true ->
  obj l !! k = Some v -> k ∈ vocabulary.
Proof.
  intros Hall [Hin|Hempty]%foldl_insert_lookup_Some; [|by rewrite lookup_empty in Hempty].
  rewrite forallb_forall in Hall. apply includes_elem_of, Hall.
  by apply list_elem_of_In.
Qed.

Section VocabularyProperties.

Variable deinflectL10NKeys : Z -> option jsstring.

(** X11.  Every key of a marker map is a marker of the vocabulary
    [ANKI_FIELD_MARKERS]: the builders emit no marker that the settings
    page does not list. *)
Theorem buildMarkerValues_keys_in_vocabulary (entry : CopyEntry)
    (context : option AnkiNoteContext) (marker value : jsstring) :
  buildMarkerValues deinflectL10NKeys entry context !! marker = Some value ->
  marker ∈ ANKI_FIELD_MARKERS.
Proof.
  destruct entry as [w|kj|nm]; cbn [buildMarkerValues];
    apply obj_key_elem_of; vm_compute; reflexivity.
Qed.

End VocabularyProperties.

Lemma buildMarkerValues_keys_in_vocabulary_witness :
  js "onyomi" ∈ ANKI_FIELD_MARKERS.
Proof.
  apply (buildMarkerValues_keys_in_vocabulary noDeinflectKeys (kanji nekoKanji) None
           (js "onyomi") (js "ビョウ")).
  reflexivity.
Defined.

(** ** More on pitch accents *)

Lemma pitchStep_array (ent : jsstring) (accents : list Z)
    (st : list jsstring * list jsstring) :
  foldl (fun st' accent =>
           (st'.1 ++ [String_of_Z accent], st'.2 ++ [getPitchCategory ent accent]))
        st accents
  = (st.1 ++ map String_of_Z accents, st.2 ++ map (getPitchCategory ent) accents).
Proof.
  revert st. induction accents as [|a accents IH]; intros [ps cs]; cbn [foldl map fst snd].
  - by rewrite !app_nil_r.
  - rewrite IH. cbn [fst snd]. by rewrite <- !app_assoc.
Qed.

Lemma accentsOf_cons (r : Reading) (readings : list Reading) :
  accentsOf (r :: readings)
  = match r_a r with
    | AccentNumber accentValue => [(r_ent r, accentValue)]
    | AccentArray accentValue => map (pair (r_ent r)) accentValue
    | AccentOther => []
    end ++ accentsOf readings.
Proof. reflexivity. Qed.

Lemma pitchLoop (readings : list Reading) (st : list jsstring * list jsstring) :
  foldl pitchStep st readings
  = (st.1 ++ map (fun a => String_of_Z a.2) (accentsOf readings),
     st.2 ++ map (fun a => getPitchCategory a.1 a.2) (accentsOf readings)).
Proof.
  revert st. induction readings as [|r readings IH]; intros [ps cs].
  - cbn. by rewrite !app_nil_r.
  - cbn [foldl]. rewrite IH, accentsOf_cons, !map_app, !app_assoc.
    unfold pitchStep. destruct (r_a r) as [n|accents|]; cbn [fst snd map app].
    + done.
    + rewrite pitchStep_array. cbn [fst snd]. by rewrite !map_map.
    + by rewrite !app_nil_r.
Qed.

(** X12.  The pitch loop keeps its two lists aligned: there is one position
    and one category per accent of the displayed readings, in the same
    order, and the category at an index classifies the position at that
    index against its own reading. *)
Theorem pitch_lists_aligned (readings : list Reading) :
  let pitch := foldl pitchStep ([], []) readings in
  pitch.1 = map (fun a => String_of_Z a.2) (accentsOf readings)
  /\ pitch.2 = map (fun a => getPitchCategory a.1 a.2) (accentsOf readings)
  /\ length pitch.1 = length pitch.2.
Proof.
  cbn zeta. rewrite pitchLoop. cbn [fst snd app].
  repeat split. by rewrite !length_map.
Qed.

Lemma chars_length (s : jsstring) : (length (chars s) <= length s)%nat.
Proof.
  remember (length s) as n eqn:Hn.
  revert s Hn. induction n as [n IH] using lt_wf_ind. intros s Hn.
  destruct s as [|h [|l t]]; [subst n; simpl; lia..|].
  rewrite chars_cons2. destruct (isHighSurrogate h && isLowSurrogate l); cbn [length].
  - specialize (IH (length t) ltac:(subst n; simpl; lia) t eq_refl).
    subst n. simpl. lia.
  - specialize (IH (length (l :: t)) ltac:(subst n; simpl; lia) (l :: t) eq_refl).
    subst n. simpl in *. lia.
Qed.

Lemma countMorae_bounds (reading0 : jsstring) :
  0 <= countMorae reading0 <= jslen reading0.
Proof.
  rewrite countMorae_filter. unfold jslen.
  pose proof (length_filter (fun char => char ∉ smallKana) (chars reading0)).
  pose proof (chars_length reading0). lia.
Qed.

Lemma pitch_categories_distinct :
  js "heiban" <> js "odaka" /\ js "atamadaka" <> js "odaka"
  /\ js "nakadaka" <> js "odaka".
Proof. repeat split; by vm_compute. Qed.

(** X13.  The classifier answers odaka only for a drop position between 2
    and the length of the reading: never for a position outside the word,
    and never for a word of one mora. *)
Theorem getPitchCategory_odaka_range (reading0 : jsstring) (position : Z) :
  getPitchCategory reading0 position = js "odaka" ->
  2 <= position <= jslen reading0 /\ position = countMorae reading0.
Proof.
  pose proof (countMorae_bounds reading0) as Hb.
  pose proof pitch_categories_distinct as (Hh & Ha & Hn).
  unfold getPitchCategory.
  destruct (position =? 0) eqn:H0; [done|].
  destruct (position =? 1) eqn:H1; [done|].
  destruct (position =? countMorae reading0) eqn:Hm; [|done].
  intros _. apply Z.eqb_neq in H0, H1. apply Z.eqb_eq in Hm. lia.
Qed.

Lemma getPitchCategory_odaka_range_witness :
  2 <= 2 <= jslen (js "きょう") /\ 2 = countMorae (js "きょう").
Proof. apply getPitchCategory_odaka_range. reflexivity. Defined.

(** ** Sets of tags *)

Lemma uniq_loop (arr seen : list jsstring) :
  NoDup seen ->
  let result := foldl (fun seen x => if includes seen x then seen else seen ++ [x])
                      seen arr in
  NoDup result /\ forall x, x ∈ result <-> x ∈ seen \/ x ∈ arr.
Proof.
  revert seen. induction arr as [|y arr IH]; intros seen Hnodup; cbn [foldl].
  - split; [done|]. intros x. rewrite elem_of_nil. tauto.
  - destruct (includes seen y) eqn:Hy.
    + apply includes_elem_of in Hy. destruct (IH seen Hnodup) as [Hn Hmem].
      split; [done|]. intros x. rewrite Hmem, elem_of_cons.
      split; [tauto|]. intros [?|[->|?]]; tauto.
    + apply includes_not_elem_of in Hy.
      assert (Hnodup' : NoDup (seen ++ [y])).
      { apply NoDup_app. split; [done|]. split; [|apply NoDup_singleton].
        intros x Hx ->%list_elem_of_singleton. done. }
      destruct (IH _ Hnodup') as [Hn Hmem].
      split; [done|]. intros x.
      rewrite Hmem, elem_of_app, list_elem_of_singleton, elem_of_cons. tauto.
Qed.

(** X14.  The tags collected through a [Set] come out without duplicates,
    and they are exactly the tags that were put in: the part-of-speech and
    tags markers list every tag of the senses once. *)
Theorem uniq_set (arr : list jsstring) :
  NoDup (uniq arr) /\ forall x, x ∈ uniq arr <-> x ∈ arr.
Proof.
  destruct (uniq_loop arr [] (NoDup_nil_2)) as [Hn Hmem].
  split; [done|]. intros x. unfold uniq. rewrite Hmem, elem_of_nil. tauto.
Qed.

(** ** The runs of an expression *)

Lemma joinRun_cons (c : jsstring) (cs : list jsstring) :
  joinRun (isKanaChar c) c (groupRuns cs) = map runGroup (groupRuns (c :: cs)).
Proof.
  cbn [groupRuns]. destruct (groupRuns cs) as [|[b run] rest]; cbn [joinRun].
  - unfold runGroup. simpl. by rewrite app_nil_r.
  - destruct (Bool.eqb (isKanaChar c) b) eqn:E.
    + apply eqb_prop in E as <-. done.
    + cbn [map]. unfold runGroup at 3. cbn [concat fst snd]. by rewrite app_nil_r.
Qed.

Lemma foldl_groupStep_runs (cs : list jsstring) (gsl : list Group)
    (cur : jsstring) (b : bool) :
  Forall (fun c => c <> []) cs -> cur <> [] ->
  pushCurrent (foldl groupStep
                 {| groups := gsl; currentGroup := cur; currentIsKana := Some b |} cs)
  = gsl ++ joinRun b cur (groupRuns cs).
Proof.
  intros Hcs. revert gsl cur b.
  induction Hcs as [|c cs Hc _ IH]; intros gsl cur b Hcur.
  - unfold pushCurrent. simpl. by destruct cur.
  - cbn [foldl]. unfold groupStep at 2. cbn [currentIsKana currentGroup groups].
    case_bool_decide as Hsame.
    + injection Hsame as Hsame. rewrite IH by (by destruct cur). f_equal.
      cbn [groupRuns]. rewrite Hsame.
      destruct (groupRuns cs) as [|[b' run] rest]; cbn [joinRun].
      * rewrite eqb_reflx. simpl. by rewrite app_nil_r.
      * destruct (Bool.eqb b b') eqn:E.
        -- cbn [joinRun]. rewrite E. simpl. by rewrite <- app_assoc.
        -- cbn [joinRun]. rewrite eqb_reflx. simpl. by rewrite app_nil_r.
    + assert (Hne : Bool.eqb b (isKanaChar c) = false).
      { apply eqb_false_iff. intros ->. by apply Hsame. }
      rewrite IH by done.
      replace (pushCurrent {| groups := gsl; currentGroup := cur; currentIsKana := Some b |})
        with (gsl ++ [{| gtext := cur; isKana := b |}])
        by (unfold pushCurrent; simpl; by destruct cur).
      rewrite <- app_assoc. f_equal. cbn [app].
      rewrite joinRun_cons.
      destruct (groupRuns (c :: cs)) as [|[b' run] rest] eqn:Hruns.
      * cbn [groupRuns] in Hruns. destruct (groupRuns cs) as [|[? ?] ?]; [done|].
        by destruct (Bool.eqb _ _).
      * assert (Hb' : b' = isKanaChar c).
        { cbn [groupRuns] in Hruns. destruct (groupRuns cs) as [|[b0 ?] ?].
          - by injection Hruns as <- _ _.
          - destruct (Bool.eqb (isKanaChar c) b0) eqn:E; injection Hruns as <- _ _; [|done].
            symmetry. by apply eqb_prop. }
        cbn [joinRun]. rewrite Hb', Hne. done.
Qed.

Lemma chars_nonempty (s : jsstring) : Forall (fun c => c <> []) (chars s).
Proof.
  eapply Forall_impl; [apply chars_isChar|]. by intros c [u|h l _].
Qed.

(** The grouping loop computes the runs of the characters. *)
Lemma splitGroups_runs (expression : jsstring) :
  splitGroups expression = map runGroup (groupRuns (chars expression)).
Proof.
  unfold splitGroups. pose proof (chars_nonempty expression) as Hne.
  destruct (chars expression) as [|c cs]; [done|].
  apply Forall_cons in Hne as [Hc Hcs].
  cbn [foldl]. unfold groupStep at 2. cbn [currentIsKana currentGroup groups].
  rewrite bool_decide_eq_false_2 by done.
  change (pushCurrent {| groups := []; currentGroup := []; currentIsKana := None |})
    with (@nil Group).
  rewrite foldl_groupStep_runs by done. cbn [app]. apply joinRun_cons.
Qed.










(** ** Furigana: which segments carry a reading *)

Lemma groupRuns_single (cs : list jsstring) (b : bool) :
  cs <> [] -> Forall (fun c => isKanaChar c = b) cs -> groupRuns cs = [(b, cs)].
Proof.
  intros Hne Hall. induction Hall as [|c cs Hc Hall IH]; [done|].
  cbn [groupRuns]. destruct cs as [|c' cs]; [by rewrite Hc|].
  rewrite IH by done. by rewrite Hc, eqb_reflx.
Qed.

Lemma join_single (sep p : jsstring) : join sep [p] = p.
Proof. reflexivity. Qed.

(** X5.  An expression without any kana character is never segmented: for
    a reading that is neither empty nor the expression the distributor
    returns the whole expression with the whole reading, which is written
    [expression[reading]] in bracket notation and as one ruby element in
    HTML. *)
Theorem distributeFurigana_no_kana (expression reading0 : jsstring) :
  expression <> [] -> reading0 <> [] -> reading0 <> expression ->
  Forall (fun c => isKanaChar c = false) (chars expression) ->
  distributeFurigana expression reading0
  = [{| text := expression; reading := reading0 |}]
  /\ buildFuriganaPlain expression reading0
     = expression ++ js "[" ++ reading0 ++ js "]"
  /\ buildFuriganaHtml expression reading0
     = js "<ruby>" ++ expression ++ js "<rt>" ++ reading0 ++ js "</rt></ruby>".
Proof.
  intros Hexpr Hreading Hneq Hall.
  assert (Hjseq : jseq reading0 expression = false)
    by (apply not_true_iff_false; by rewrite jseq_eq).
  assert (Htruthy : truthy reading0 = true) by (by destruct reading0).
  assert (Hchars : chars expression <> []).
  { intros Hnil. pose proof (chars_concat expression) as Hcat.
    rewrite Hnil in Hcat. by symmetry in Hcat. }
  assert (Hk : isAllKana expression = false).
  { unfold isAllKana. apply andb_false_iff. left.
    destruct (chars expression) as [|c cs]; [done|].
    apply Forall_cons in Hall as [Hc _]. cbn [forallb]. by rewrite Hc. }
  assert (Hdist : distributeFurigana expression reading0
                  = [{| text := expression; reading := reading0 |}]).
  { unfold distributeFurigana. rewrite Hjseq, Htruthy, Hk. cbn [orb negb].
    by rewrite splitGroups_runs, (groupRuns_single _ false) by done. }
  split; [done|].
  unfold buildFuriganaPlain, buildFuriganaHtml.
  rewrite Hjseq, Htruthy, Hdist. cbn [orb negb map reading text].
  rewrite Htruthy. by rewrite !join_single.
Qed.

Lemma Forall_forallb {A} (p : A -> bool) (l : list A) :
  forallb p l = true -> Forall (fun x => p x = true) l.
Proof.
  intros H. apply Forall_forall. intros x Hin.
  rewrite forallb_forall in H. apply H. by apply list_elem_of_In.
Qed.

Lemma distributeFurigana_no_kana_witness :
  buildFuriganaPlain (js "漢字") (js "かんじ") = js "漢字[かんじ]"
  /\ buildFuriganaHtml (js "漢字") (js "かんじ")
     = js "<ruby>漢字<rt>かんじ</rt></ruby>".
Proof.
  destruct (distributeFurigana_no_kana (js "漢字") (js "かんじ")) as (_ & Hp & Hh).
  - by vm_compute.
  - by vm_compute.
  - by vm_compute.
  - apply Forall_forall. intros c Hin. apply negb_true_iff.
    revert c Hin. apply Forall_forall, Forall_forallb. reflexivity.
  - split; [rewrite Hp | rewrite Hh]; reflexivity.
Defined.

(** X6.  No furigana is added when the reading is empty, when it is the
    expression itself, or when the expression is all kana: both notations
    give back the expression. *)
Theorem buildFurigana_unannotated (expression reading0 : jsstring) :
  reading0 = [] \/ reading0 = expression \/ isAllKana expression = true ->
  buildFuriganaPlain expression reading0 = expression
  /\ buildFuriganaHtml expression reading0 = expression.
Proof.
  intros Hcase. unfold buildFuriganaPlain, buildFuriganaHtml, distributeFurigana.
  destruct (truthy reading0) eqn:Ht; [|done]. cbn [negb orb].
  destruct (jseq reading0 expression) eqn:Hj; [done|].
  destruct Hcase as [->|[->|Hkana]]; [done | by rewrite jseq_refl in Hj |].
  rewrite Hkana. cbn [orb map reading truthy text]. by rewrite !join_single.
Qed.

Lemma buildFurigana_unannotated_witness :
  buildFuriganaPlain (js "たべる") (js "タベル") = js "たべる"
  /\ buildFuriganaHtml (js "たべる") (js "タベル") = js "たべる".
Proof. apply buildFurigana_unannotated. right. right. reflexivity. Defined.

Lemma walkStep_nonempty reading0 readingNorm st group segments' readingPos' :
  walkStep reading0 readingNorm st group = Some (segments', readingPos') ->
  segments' <> [].
Proof.
  unfold walkStep. destruct st as [segments readingPos].
  destruct (isKana group); [destruct (0 <=? _); [|done]|];
    intros [= <- <-]; apply app_singleton_not_nil.
Qed.

Lemma walk_nonempty reading0 readingNorm gs st segments' readingPos' :
  walk reading0 readingNorm gs st = Some (segments', readingPos') ->
  gs <> [] \/ st.1 <> [] -> segments' <> [].
Proof.
  revert st. induction gs as [|group gs IH]; intros st; cbn [walk].
  - intros [= ->]. by intros [?|?].
  - destruct (walkStep reading0 readingNorm st group) as [[segs1 pos1]|] eqn:Hstep;
      [|done].
    intros Hwalk _. apply (IH _ Hwalk). right. cbn [fst].
    by apply walkStep_nonempty in Hstep.
Qed.

Lemma setReading_length i r segments :
  length (setReading i r segments) = length segments.
Proof. unfold setReading. apply length_alter. Qed.

(** X7.  The distributor returns no segment at all exactly for the empty
    expression with a reading that is not empty; every other input gives
    at least one segment. *)
Theorem distributeFurigana_nil (expression reading0 : jsstring) :
  distributeFurigana expression reading0 = []
  <-> expression = [] /\ reading0 <> [].
Proof.
  split.
  - unfold distributeFurigana.
    destruct (jseq reading0 expression || negb (truthy reading0)) eqn:Hfirst; [done|].
    destruct (isAllKana expression); [done|].
    destruct (length (splitGroups expression) =? 1)%nat; [done|].
    destruct (walk _ _ _ _) as [[segments readingPos]|] eqn:Hwalk; [|done].
    intros Hnil.
    assert (Hsegs : segments = []).
    { destruct (readingPos <? jslen reading0); [|done].
      destruct (findLastKanji segments); [|done].
      apply (f_equal length) in Hnil. rewrite setReading_length in Hnil.
      by destruct segments. }
    split.
    + destruct (splitGroups expression) as [|g gs] eqn:Hsplit.
      * by rewrite <- (splitGroups_flat expression), Hsplit.
      * exfalso. apply (walk_nonempty _ _ _ _ _ _ Hwalk); [by left | done].
    + intros ->. by rewrite orb_true_r in Hfirst.
  - intros [-> Hr]. destruct reading0; done.
Qed.




Lemma last_snoc_seg (segments : list FuriganaSegment) (seg : FuriganaSegment) :
  last (segments ++ [seg]) = Some seg.
Proof. apply last_snoc. Qed.




(** ** Audio file names *)

Lemma replaceUnsafe_safe (s : jsstring) : forallb isNameChar (replaceUnsafe s) = true.
Proof.
  unfold replaceUnsafe. induction s as [|u s IH]; [done|].
  cbn [map forallb]. rewrite IH, andb_true_r.
  by destruct (isNameChar u) eqn:E.
Qed.

Lemma forallb_take {A} (p : A -> bool) (n : nat) (l : list A) :
  forallb p l = true -> forallb p (take n l) = true.
Proof.
  revert n. induction l as [|x l IH]; intros [|n]; try done.
  cbn [take forallb]. intros [-> Hl]%andb_true_iff. by apply IH.
Qed.

Lemma slice_prefix (s : jsstring) (n : nat) :
  slice s 0 (Z.of_nat n) = take n s.
Proof.
  unfold slice, sliceIndex, jslen. cbn [Z.ltb Z.compare].
  replace (Z.of_nat n <? 0) with false by (symmetry; apply Z.ltb_ge; lia).
  rewrite (Z.min_l 0) by lia. change (Z.to_nat 0) with 0%nat. cbn [drop].
  rewrite Z.sub_0_r.
  destruct (decide (n <= length s)%nat).
  - by rewrite Z.min_l, Nat2Z.id by lia.
  - rewrite Z.min_r, Nat2Z.id by lia.
    rewrite (take_ge s n) by lia. apply take_ge. lia.
Qed.

(** X15.  The part of an audio file name that comes from the expression
    has at most 80 code units, all of them ASCII letters, digits,
    underscores or hyphens, whatever the expression; an expression that is
    already such a name of at most 80 units is kept as it is. *)
Theorem buildAudioResult_safe_name (isoNow expression base64data : jsstring) :
  exists safeExpr,
    filename (buildAudioResult isoNow expression base64data)
    = js "10ten_audio_" ++ safeExpr ++ js "_" ++ replaceColonDot isoNow ++ js ".mp3"
    /\ (length safeExpr <= 80)%nat
    /\ length safeExpr = Nat.min 80 (length expression)
    /\ forallb isNameChar safeExpr = true
    /\ (forallb isNameChar expression = true -> (length expression <= 80)%nat ->
        safeExpr = expression).
Proof.
  exists (slice (replaceUnsafe expression) 0 80). split; [done|].
  change 80 with (Z.of_nat 80). rewrite slice_prefix.
  repeat split.
  - rewrite length_take. lia.
  - rewrite length_take. unfold replaceUnsafe. rewrite length_map. lia.
  - apply forallb_take, replaceUnsafe_safe.
  - intros Hsafe Hlen. rewrite take_ge by (unfold replaceUnsafe; by rewrite length_map).
    unfold replaceUnsafe. rewrite <- (map_id expression) at 2.
    apply map_ext_in. intros u Hin. rewrite forallb_forall in Hsafe.
    by rewrite (Hsafe u Hin).
Qed.

Lemma buildAudioResult_safe_name_witness :
  filename (buildAudioResult (js "2026-01-02T03:04:05.678Z") (js "食べる-taberu") [])
  = js "10ten_audio____-taberu_2026-01-02T03-04-05-678Z.mp3".
Proof.
  destruct (buildAudioResult_safe_name (js "2026-01-02T03:04:05.678Z")
              (js "食べる-taberu") []) as (safe & Hname & _ & _ & _ & _).
  reflexivity.
Defined.

(** X16.  When the timestamp is made of name characters, colons and dots,
    as an ISO timestamp is, the whole file name before its [.mp3]
    extension is made of ASCII letters, digits, underscores and hyphens:
    it contains no dot, colon, slash or space. *)
Theorem buildAudioResult_filename_chars (isoNow expression base64data : jsstring) :
  forallb (fun u => isNameChar u || (u =? 0x3A) || (u =? 0x2E)) isoNow = true ->
  exists stem,
    filename (buildAudioResult isoNow expression base64data) = stem ++ js ".mp3"
    /\ forallb isNameChar stem = true.
Proof.
  intros Hiso.
  exists (js "10ten_audio_" ++ slice (replaceUnsafe expression) 0 80 ++ js "_"
          ++ replaceColonDot isoNow).
  split; [cbn [buildAudioResult filename]; by rewrite <- !app_assoc|].
  rewrite !forallb_app. change 80 with (Z.of_nat 80). rewrite slice_prefix.
  rewrite (forallb_take _ _ _ (replaceUnsafe_safe expression)).
  change (forallb isNameChar (js "10ten_audio_")) with true.
  change (forallb isNameChar (js "_")) with true. cbn [andb].
  unfold replaceColonDot. induction isoNow as [|u iso IH]; [done|].
  cbn [map forallb] in *. apply andb_true_iff in Hiso as [Hu Hiso].
  rewrite (IH Hiso), andb_true_r.
  destruct ((u =? 0x3A) || (u =? 0x2E)) eqn:E; [done|].
  rewrite <- orb_assoc, E, orb_false_r in Hu. done.
Qed.

Lemma buildAudioResult_filename_chars_witness :
  exists stem,
    filename (buildAudioResult (js "2026-01-02T03:04:05.678Z") (js "猫") [])
    = stem ++ js ".mp3"
    /\ forallb isNameChar stem = true.
Proof. apply buildAudioResult_filename_chars. reflexivity. Defined.

(** ** The placeholder hash *)

Lemma join_nil_concat (parts : list jsstring) : join [] parts = concat parts.
Proof.
  induction parts as [|p [|q parts] IH]; [done | by cbn; rewrite app_nil_r |].
  change (join [] (p :: q :: parts)) with (p ++ [] ++ join [] (q :: parts)).
  by rewrite IH.
Qed.

Lemma bytes_by_cases (P : Z -> bool) :
  forallb P (map Z.of_nat (seq 0 256)) = true ->
  forall b, isByte b -> P b = true.
Proof.
  intros Hall b [Hlo Hhi]. rewrite forallb_forall in Hall. apply Hall.
  apply in_map_iff. exists (Z.to_nat b). split; [lia|]. apply in_seq. lia.
Qed.

Lemma hexByte_digits (b : Z) :
  isByte b ->
  padStart (toString16 b) 2 0x30 = [hexDigit (b / 16); hexDigit (b mod 16)].
Proof.
  intros Hb. apply jseq_eq.
  apply (bytes_by_cases
           (fun b => jseq (padStart (toString16 b) 2 0x30)
                          [hexDigit (b / 16); hexDigit (b mod 16)])); [|done].
  by vm_compute.
Qed.

Lemma hexDigit_inj (d1 d2 : Z) :
  0 <= d1 < 16 -> 0 <= d2 < 16 -> hexDigit d1 = hexDigit d2 -> d1 = d2.
Proof.
  unfold hexDigit. intros H1 H2.
  destruct (d1 <? 10) eqn:E1, (d2 <? 10) eqn:E2;
    rewrite ?Z.ltb_lt, ?Z.ltb_ge in *; lia.
Qed.

Lemma hashHex_cons (b : Z) (hashArray : list Z) :
  isByte b ->
  hashHex (b :: hashArray)
  = hexDigit (b / 16) :: hexDigit (b mod 16) :: hashHex hashArray.
Proof.
  intros Hb. unfold hashHex. rewrite !join_nil_concat. cbn [map concat].
  by rewrite hexByte_digits.
Qed.

Lemma hashHex_inj (l1 l2 : list Z) :
  Forall isByte l1 -> Forall isByte l2 -> hashHex l1 = hashHex l2 -> l1 = l2.
Proof.
  intros H1. revert l2. induction H1 as [|b1 l1 Hb1 _ IH]; intros l2 H2.
  - destruct H2 as [|b2 l2 Hb2 _]; [done|]. by rewrite hashHex_cons.
  - destruct H2 as [|b2 l2 Hb2 H2]; [by rewrite hashHex_cons|].
    rewrite !hashHex_cons by done. intros [= Hhi Hlo Hrest].
    unfold isByte in *.
    apply hexDigit_inj in Hhi;
      [|split; [apply Z.div_pos | apply Z.div_lt_upper_bound]; lia..].
    apply hexDigit_inj in Hlo; [|apply Z.mod_pos_bound; lia..].
    f_equal; [|by apply IH].
    rewrite (Z.div_mod b1 16), (Z.div_mod b2 16) by lia. congruence.
Qed.

Lemma hashHex_length (hashArray : list Z) :
  Forall isByte hashArray -> length (hashHex hashArray) = (2 * length hashArray)%nat.
Proof.
  intros H. induction H as [|b l Hb _ IH]; [done|].
  rewrite hashHex_cons by done. simpl. lia.
Qed.

(** X17.  A digest of bytes is written with two lower-case hexadecimal
    digits per byte, so that the comparison with the hash constant holds
    for exactly one digest, the thirty-two bytes that the constant spells;
    when the digest cannot be computed the audio is not rejected. *)
Theorem isInvalidJpod101Audio_exact (hashArray : list Z) :
  Forall isByte hashArray ->
  length (hashHex hashArray) = (2 * length hashArray)%nat
  /\ (isInvalidJpod101Audio (Some hashArray) = true
      <-> hashArray = jpod101InvalidAudioBytes)
  /\ isInvalidJpod101Audio None = false.
Proof.
  intros Hbytes. split; [by apply hashHex_length|]. split; [|done].
  unfold isInvalidJpod101Audio. rewrite jseq_eq.
  assert (Hconst : hashHex jpod101InvalidAudioBytes = JPOD101_INVALID_AUDIO_HASH)
    by (by vm_compute).
  assert (Hcbytes : Forall isByte jpod101InvalidAudioBytes)
    by (unfold jpod101InvalidAudioBytes, isByte; repeat constructor; lia).
  rewrite <- Hconst. split; [by apply hashHex_inj | by intros ->].
Qed.

Lemma isInvalidJpod101Audio_exact_witness :
  isInvalidJpod101Audio (Some [0xae; 0x63; 0x98]) = true
  <-> [0xae; 0x63; 0x98] = jpod101InvalidAudioBytes.
Proof.
  apply (isInvalidJpod101Audio_exact [0xae; 0x63; 0x98]).
  unfold isByte. repeat constructor; lia.
Defined.

(** ** The chain of audio sources *)

Section AudioChainProperties.

Variable fetchAudioFromSource : AudioSourceType -> Outcome (option AudioResult).
Variable storeMediaFile : jsstring -> jsstring -> Outcome (option jsstring).

Local Abbreviation try := (tryAudioSource fetchAudioFromSource storeMediaFile).

Lemma audioLoop_spec (sources : list AudioSourceType) :
  match audioLoop fetchAudioFromSource storeMediaFile sources with
  | (Some storedName, asked) =>
    exists failed source rest,
      sources = failed ++ source :: rest /\ asked = failed ++ [source]
      /\ Forall (fun s => try s = None) failed /\ try source = Some storedName
  | (None, asked) => asked = sources /\ Forall (fun s => try s = None) sources
  end.
Proof.
  induction sources as [|source sources IH]; cbn [audioLoop]; [done|].
  destruct (try source) as [storedName|] eqn:Htry.
  - exists [], source, sources. by repeat split.
  - destruct (audioLoop _ _ sources) as [[storedName|] asked].
    + destruct IH as (failed & source' & rest & -> & -> & Hfailed & Hfound).
      exists (source :: failed), source', rest. repeat split; [|done].
      by constructor.
    + destruct IH as [-> Hall]. split; [done|]. by constructor.
Qed.


End AudioChainProperties.

(** ** Base64 of a buffer *)

Lemma fromCharCodes_bytes (bytes : list Z) :
  Forall isByte bytes -> fromCharCodes bytes = bytes.
Proof.
  intros H. unfold fromCharCodes. induction H as [|b l Hb _ IH]; [done|].
  cbn [map]. rewrite IH. f_equal. unfold isByte in Hb. apply Z.mod_small. lia.
Qed.

Lemma slice_chunk (bytes : list Z) (i chunkSize : Z) :
  0 <= i < jslen bytes -> 0 < chunkSize ->
  slice bytes i (i + chunkSize)
  = take (Z.to_nat chunkSize) (drop (Z.to_nat i) bytes).
Proof.
  intros Hi Hc. unfold slice, sliceIndex, jslen in *.
  replace (i <? 0) with false by (symmetry; apply Z.ltb_ge; lia).
  replace (i + chunkSize <? 0) with false by (symmetry; apply Z.ltb_ge; lia).
  rewrite (Z.min_l i) by lia.
  destruct (Z.le_gt_cases (i + chunkSize) (Z.of_nat (length bytes))).
  - rewrite Z.min_l by lia. f_equal. lia.
  - rewrite Z.min_r by lia.
    rewrite !take_ge; [done | rewrite length_drop; lia | rewrite length_drop; lia].
Qed.

Lemma base64Loop_all (chunkSize : Z) (bytes : list Z) (fuel : nat) (i : Z)
    (binary : jsstring) :
  0 < chunkSize -> 0 <= i ->
  jslen bytes - i < Z.of_nat fuel * chunkSize ->
  base64Loop fuel chunkSize bytes i binary
  = binary ++ fromCharCodes (drop (Z.to_nat i) bytes).
Proof.
  intros Hc. revert i binary. induction fuel as [|fuel IH]; intros i binary Hi Hfuel.
  - cbn [base64Loop]. rewrite drop_ge; [by rewrite app_nil_r|]. unfold jslen in *. lia.
  - cbn [base64Loop]. destruct (i <? jslen bytes) eqn:Hlt.
    + apply Z.ltb_lt in Hlt. rewrite IH by lia.
      rewrite slice_chunk by lia. rewrite <- app_assoc. f_equal.
      unfold fromCharCodes. rewrite <- map_app. f_equal.
      rewrite Z2Nat.inj_add by lia. rewrite <- drop_drop. apply take_drop.
    + apply Z.ltb_ge in Hlt. rewrite drop_ge; [by rewrite app_nil_r|].
      unfold jslen in *. lia.
Qed.

(** X19.  Whatever the size of the buffer, the chunked conversion hands to
    [btoa] the bytes of the buffer, one code unit per byte and in order:
    nothing is lost or repeated at the chunk boundaries. *)
Theorem arrayBufferToBase64_whole (btoa : jsstring -> jsstring) (bytes : list Z) :
  Forall isByte bytes -> arrayBufferToBase64 btoa bytes = btoa bytes.
Proof.
  intros Hbytes. unfold arrayBufferToBase64. f_equal.
  rewrite base64Loop_all; [| lia | lia | unfold jslen; lia].
  cbn [Z.to_nat drop app]. by apply fromCharCodes_bytes.
Qed.

Lemma arrayBufferToBase64_whole_witness :
  arrayBufferToBase64 (fun binary => binary) [0xFF; 0x00; 0x41] = [0xFF; 0x00; 0x41].
Proof.
  apply (arrayBufferToBase64_whole (fun binary => binary)).
  unfold isByte. repeat constructor; lia.
Defined.

(** ** The tags field *)

Lemma trimStart_head (s : jsstring) :
  match trimStart s with u :: _ => isJsSpace u = false | [] => True end.
Proof.
  induction s as [|u s IH]; [done|]. cbn [trimStart].
  by destruct (isJsSpace u) eqn:E.
Qed.

Lemma trimStart_id (s : jsstring) :
  match s with u :: _ => isJsSpace u = false | [] => True end -> trimStart s = s.
Proof. destruct s as [|u s]; [done|]. cbn [trimStart]. by intros ->. Qed.

Lemma trimStart_suffix (s : jsstring) : exists pre, s = pre ++ trimStart s.
Proof.
  induction s as [|u s [pre IH]]; [by exists []|]. cbn [trimStart].
  destruct (isJsSpace u); [|by exists []].
  exists (u :: pre). cbn [app]. by rewrite <- IH.
Qed.

Lemma trimStart_snoc (s : jsstring) (u : Z) :
  isJsSpace u = false -> exists pre, trimStart (s ++ [u]) = pre ++ [u].
Proof.
  intros Hu. induction s as [|v s [pre IH]].
  - exists []. cbn [app trimStart]. by rewrite Hu.
  - cbn [app trimStart]. destruct (isJsSpace v); [by exists pre|].
    by exists (v :: s).
Qed.

Lemma trimEnd_head (s : jsstring) :
  match s with u :: _ => isJsSpace u = false | [] => True end ->
  match trimEnd s with u :: _ => isJsSpace u = false | [] => True end.
Proof.
  destruct s as [|u s]; [done|]. intros Hu. unfold trimEnd. cbn [rev].
  destruct (trimStart_snoc (rev s) u Hu) as [pre ->].
  by rewrite rev_app_distr.
Qed.

Lemma trimEnd_idem (s : jsstring) : trimEnd (trimEnd s) = trimEnd s.
Proof.
  unfold trimEnd. rewrite rev_involutive. f_equal.
  apply trimStart_id, trimStart_head.
Qed.

Lemma trim_idem (s : jsstring) : trim (trim s) = trim s.
Proof.
  unfold trim. rewrite (trimStart_id (trimEnd (trimStart s))).
  - apply trimEnd_idem.
  - apply trimEnd_head, trimStart_head.
Qed.

Lemma trim_sub (s : jsstring) : exists pre post, s = pre ++ trim s ++ post.
Proof.
  unfold trim, trimEnd.
  destruct (trimStart_suffix s) as [pre Hpre].
  destruct (trimStart_suffix (rev (trimStart s))) as [post Hpost].
  exists pre, (rev post). rewrite Hpre at 1. f_equal.
  rewrite <- rev_app_distr, <- Hpost. by rewrite rev_involutive.
Qed.

Lemma split_pieces (sep : Z) (s : jsstring) : Forall (fun p => sep ∉ p) (split sep s).
Proof.
  induction s as [|u s IH]; [repeat constructor; apply not_elem_of_nil|].
  cbn [split]. destruct (u =? sep) eqn:E.
  - constructor; [apply not_elem_of_nil | done].
  - apply Z.eqb_neq in E. destruct (split sep s) as [|piece pieces].
    + repeat constructor. intros ->%list_elem_of_singleton. done.
    + apply Forall_cons in IH as [Hp Hps]. constructor; [|done].
      intros [->|Hin]%elem_of_cons; done.
Qed.

(** X20.  Every tag read from the tags input is clean: it is not empty, it
    holds no comma, and it has no white space at either end. *)
Theorem parseTags_clean (value : jsstring) :
  Forall (fun t => t <> [] /\ (0x2C ∉ t) /\ trim t = t) (parseTags value).
Proof.
  unfold parseTags. apply Forall_forall. intros t Hin.
  apply list_elem_of_filter in Hin as [Htruthy Hin].
  apply list_elem_of_fmap in Hin as (p & -> & Hp).
  split; [by destruct (trim p)|]. split; [|apply trim_idem].
  pose proof (split_pieces 0x2C value) as Hpieces.
  rewrite Forall_forall in Hpieces. specialize (Hpieces p Hp).
  destruct (trim_sub p) as (pre & post & Heq). intros Hcomma. apply Hpieces.
  rewrite Heq. rewrite !elem_of_app. tauto.
Qed.

Lemma split_no_sep (sep : Z) (t : jsstring) : sep ∉ t -> split sep t = [t].
Proof.
  induction t as [|u t IH]; [done|]. intros Hnot.
  cbn [split]. replace (u =? sep) with false.
  - rewrite IH; [done|]. intros Hin. apply Hnot. by right.
  - symmetry. apply Z.eqb_neq. intros ->. apply Hnot. by left.
Qed.

Lemma split_app_sep (sep : Z) (t rest : jsstring) :
  sep ∉ t -> split sep (t ++ sep :: rest) = t :: split sep rest.
Proof.
  induction t as [|u t IH]; intros Hnot.
  - cbn [app split]. by rewrite Z.eqb_refl.
  - cbn [app split]. replace (u =? sep) with false.
    + rewrite IH; [done|]. intros Hin. apply Hnot. by right.
    + symmetry. apply Z.eqb_neq. intros ->. apply Hnot. by left.
Qed.

Lemma split_showTags (t : jsstring) (tagList : list jsstring) :
  Forall (fun t => 0x2C ∉ t) (t :: tagList) ->
  split 0x2C (showTags (t :: tagList)) = t :: map (fun t' => 0x20 :: t') tagList.
Proof.
  revert t. induction tagList as [|t' tagList IH]; intros t Hall.
  - apply Forall_cons in Hall as [Ht _]. by apply split_no_sep.
  - apply Forall_cons in Hall as [Ht Hall].
    change (showTags (t :: t' :: tagList))
      with (t ++ 0x2C :: 0x20 :: showTags (t' :: tagList)).
    rewrite split_app_sep by done. f_equal.
    cbn [split]. specialize (IH t' Hall). cbn [Z.eqb Pos.eqb].
    change (match split 44 (showTags (t' :: tagList)) with
            | [] => [[32]] | piece :: pieces => (32 :: piece) :: pieces end)
      with (match split 0x2C (showTags (t' :: tagList)) with
            | [] => [[0x20]] | piece :: pieces => (0x20 :: piece) :: pieces end).
    by rewrite IH.
Qed.

(** X21.  The tags input reads back what it shows: a list of clean tags
    (not empty, without comma, without white space at either end), shown
    as the tags joined with a comma and a space, is parsed to the same
    list. *)
Theorem parseTags_showTags (tagList : list jsstring) :
  Forall (fun t => t <> [] /\ (0x2C ∉ t) /\ trim t = t) tagList ->
  parseTags (showTags tagList) = tagList.
Proof.
  intros Hclean. destruct tagList as [|t tagList]; [done|].
  unfold parseTags. rewrite split_showTags
    by (eapply Forall_impl; [exact Hclean|]; by intros ? (_ & ? & _)).
  cbn [map]. rewrite map_map.
  assert (Htrim : forall l, Forall (fun t => t <> [] /\ (0x2C ∉ t) /\ trim t = t) l ->
            map (fun t' => trim (0x20 :: t')) l = l).
  { intros l Hl. induction Hl as [|x l (_ & _ & Hx) _ IH]; [done|].
    cbn [map]. rewrite IH. f_equal. exact Hx. }
  apply Forall_cons in Hclean as [(Hne & _ & Ht) Hrest].
  rewrite Ht, (Htrim _ Hrest).
  rewrite filter_cons_True by (by destruct t).
  f_equal. induction Hrest as [|x l (Hx & _ & _) _ IH]; [done|].
  rewrite filter_cons_True by (by destruct x). by rewrite IH.
Qed.

Lemma parseTags_showTags_witness :
  parseTags (showTags [js "10ten"; js "日本語"; js "jlpt n5"])
  = [js "10ten"; js "日本語"; js "jlpt n5"].
Proof.
  apply parseTags_showTags.
  repeat constructor; try (by vm_compute);
    intros Hin; vm_compute in Hin;
    repeat (apply elem_of_cons in Hin as [Hin|Hin]; [done|]); by apply elem_of_nil in Hin.
Defined.

(** ** Word frequencies: decoding a line *)

Lemma indexOf_zero (s needle : jsstring) : indexOf s needle 0 = indexOfFrom needle s 0.
Proof.
  unfold indexOf, clamp, jslen. rewrite Z.min_r, Z.max_l by lia. done.
Qed.

Lemma indexOfFrom_unit (c : Z) (w rest : jsstring) (k : Z) :
  c ∉ w -> indexOfFrom [c] (w ++ c :: rest) k = k + jslen w.
Proof.
  revert k. induction w as [|u w IH]; intros k Hnot.
  - cbn [app indexOfFrom startsWith]. rewrite Z.eqb_refl. unfold jslen. simpl. lia.
  - cbn [app indexOfFrom startsWith].
    replace (c =? u) with false
      by (symmetry; apply Z.eqb_neq; intros ->; apply Hnot; by left).
    cbn [andb]. rewrite IH by (intros Hin; apply Hnot; by right).
    unfold jslen. cbn [length]. lia.
Qed.

Lemma indexOfFrom_unit_none (c : Z) (s : jsstring) (k : Z) :
  c ∉ s -> indexOfFrom [c] s k = -1.
Proof.
  revert k. induction s as [|u s IH]; intros k Hnot; [done|].
  cbn [indexOfFrom startsWith].
  replace (c =? u) with false
    by (symmetry; apply Z.eqb_neq; intros ->; apply Hnot; by left).
  cbn [andb]. apply IH. intros Hin. apply Hnot. by right.
Qed.

Lemma lastIndexOfFrom_unit_none (c : Z) (s : jsstring) (k : Z) :
  c ∉ s -> lastIndexOfFrom [c] s k = -1.
Proof.
  revert k. induction s as [|u s IH]; intros k Hnot; [done|].
  cbn [lastIndexOfFrom startsWith].
  rewrite IH by (intros Hin; apply Hnot; by right). cbn [Z.leb Z.compare].
  by replace (c =? u) with false
    by (symmetry; apply Z.eqb_neq; intros ->; apply Hnot; by left).
Qed.

Lemma lastIndexOfFrom_unit (c : Z) (pre post : jsstring) (k : Z) :
  0 <= k -> c ∉ post -> lastIndexOfFrom [c] (pre ++ c :: post) k = k + jslen pre.
Proof.
  revert k. induction pre as [|u pre IH]; intros k Hk Hnot.
  - cbn [app lastIndexOfFrom startsWith].
    rewrite lastIndexOfFrom_unit_none by done. cbn [Z.leb Z.compare].
    rewrite Z.eqb_refl. unfold jslen. simpl. lia.
  - cbn [app lastIndexOfFrom]. rewrite IH by (done || lia).
    replace (0 <=? k + 1 + jslen pre) with true
      by (symmetry; apply Z.leb_le; unfold jslen; lia).
    unfold jslen. cbn [length]. lia.
Qed.

Lemma substring_mid (x y z : jsstring) :
  substring (x ++ y ++ z) (jslen x) (jslen x + jslen y) = y.
Proof.
  unfold substring, clamp, jslen. rewrite !length_app.
  set (a := Z.max 0 (Z.min _ (Z.of_nat (length x)))).
  set (b := Z.max 0 (Z.min _ (Z.of_nat (length x) + Z.of_nat (length y)))).
  replace (Z.to_nat (Z.min a b)) with (length x) by (unfold a, b; lia).
  replace (Z.to_nat (Z.max a b - Z.min a b)) with (length y) by (unfold a, b; lia).
  rewrite drop_app_length. apply take_app_length.
Qed.

Lemma substring_prefix (x z : jsstring) : substring (x ++ z) 0 (jslen x) = x.
Proof. apply (substring_mid [] x z). Qed.

Lemma substringFrom_suffix (x z : jsstring) : substringFrom (x ++ z) (jslen x) = z.
Proof.
  unfold substringFrom.
  pose proof (substring_mid x z []) as H. rewrite app_nil_r in H.
  replace (jslen (x ++ z)) with (jslen x + jslen z)
    by (unfold jslen; rewrite length_app; lia).
  exact H.
Qed.

Section FrequencyProperties.

Variable kanaToHiragana : jsstring -> jsstring.

Local Abbreviation step := (lineStep kanaToHiragana).

Lemma lineStep_decode (index : FrequencyIndex) (line : jsstring) :
  step index line
  = match decodeLine line with
    | Some (w, f, rank) => addEntry kanaToHiragana index w f rank
    | None => index
    end.
Proof.
  unfold lineStep, decodeLine.
  destruct (negb (truthy line)); [done|].
  destruct (indexOf line (js ",") 0 =? -1); [done|].
  destruct (lastIndexOf line (js ",") =? indexOf line (js ",") 0); [done|].
  by destruct (parseInt10 _).
Qed.

Lemma decodeLine_fields (word form rankText : jsstring) :
  0x2C ∉ word -> 0x2C ∉ rankText ->
  decodeLine (word ++ js "," ++ form ++ js "," ++ rankText)
  = (fun rank => (word, form, rank)) <$> parseInt10 rankText.
Proof.
  intros Hword Hrank. unfold decodeLine. change (js ",") with [0x2C].
  set (line := word ++ [0x2C] ++ form ++ [0x2C] ++ rankText).
  assert (Hfirst : indexOf line [0x2C] 0 = jslen word).
  { rewrite indexOf_zero. unfold line. cbn [app]. by rewrite indexOfFrom_unit. }
  assert (Hlast : lastIndexOf line [0x2C] = jslen word + 1 + jslen form).
  { unfold lastIndexOf, line.
    replace (word ++ [0x2C] ++ form ++ [0x2C] ++ rankText)
      with ((word ++ [0x2C] ++ form) ++ 0x2C :: rankText)
      by (by rewrite <- !app_assoc).
    rewrite lastIndexOfFrom_unit by (done || lia).
    unfold jslen. rewrite !length_app. simpl. lia. }
  replace (truthy line) with true by (unfold line; by destruct word).
  cbn [negb]. rewrite Hfirst, Hlast.
  replace (jslen word =? -1) with false
    by (symmetry; apply Z.eqb_neq; unfold jslen; lia).
  replace (jslen word + 1 + jslen form =? jslen word) with false
    by (symmetry; apply Z.eqb_neq; unfold jslen; lia).
  assert (Hw : substring line 0 (jslen word) = word) by apply substring_prefix.
  assert (Hf : substring line (jslen word + 1) (jslen word + 1 + jslen form) = form).
  { unfold line.
    replace (word ++ [0x2C] ++ form ++ [0x2C] ++ rankText)
      with ((word ++ [0x2C]) ++ form ++ [0x2C] ++ rankText)
      by (by rewrite <- !app_assoc).
    replace (jslen word + 1) with (jslen (word ++ [0x2C]))
      by (unfold jslen; rewrite length_app; simpl; lia).
    apply substring_mid. }
  assert (Hr : substringFrom line (jslen word + 1 + jslen form + 1) = rankText).
  { unfold line.
    replace (word ++ [0x2C] ++ form ++ [0x2C] ++ rankText)
      with ((word ++ [0x2C] ++ form ++ [0x2C]) ++ rankText)
      by (by rewrite <- !app_assoc).
    replace (jslen word + 1 + jslen form + 1)
      with (jslen (word ++ [0x2C] ++ form ++ [0x2C]))
      by (unfold jslen; rewrite !length_app; simpl; lia).
    apply substringFrom_suffix. }
  rewrite Hw, Hf, Hr. by destruct (parseInt10 rankText).
Qed.

(** X22.  A line [word,form,rank] of the frequency file is decoded at its
    first and its last comma: the word is what precedes the first comma,
    the rank is parsed from what follows the last one, and the form is
    everything between, commas included; the line then updates the index
    with that entry, and leaves it alone when the rank is not a number. *)
Theorem lineStep_csv_line (index : FrequencyIndex) (word form rankText : jsstring) :
  0x2C ∉ word -> 0x2C ∉ rankText ->
  step index (word ++ js "," ++ form ++ js "," ++ rankText)
  = match parseInt10 rankText with
    | Some rank => addEntry kanaToHiragana index word form rank
    | None => index
    end.
Proof.
  intros Hword Hrank. rewrite lineStep_decode, decodeLine_fields by done.
  by destruct (parseInt10 rankText).
Qed.

(** X23.  A line with fewer than two commas changes nothing: the empty
    line, a line without comma, and a line with a single comma are
    skipped. *)
Theorem lineStep_skips (index : FrequencyIndex) (a b : jsstring) :
  0x2C ∉ a -> 0x2C ∉ b ->
  step index [] = index
  /\ step index a = index
  /\ step index (a ++ js "," ++ b) = index.
Proof.
  intros Ha Hb. change (js ",") with [0x2C]. split; [done|]. split.
  - unfold lineStep. destruct (negb (truthy a)); [done|].
    change (js ",") with [0x2C].
    by rewrite indexOf_zero, indexOfFrom_unit_none.
  - unfold lineStep. destruct (negb (truthy _)); [done|].
    change (js ",") with [0x2C].
    rewrite indexOf_zero. cbn [app]. rewrite indexOfFrom_unit by done.
    unfold lastIndexOf. rewrite lastIndexOfFrom_unit by (done || lia).
    destruct (0 + jslen a =? -1); [done|]. by rewrite Z.eqb_refl.
Qed.

End FrequencyProperties.

Lemma lineStep_csv_line_witness :
  pairs (lineStep katakanaToHiragana emptyIndex
           (js "眼鏡" ++ js "," ++ js "メ,ガ,ネ" ++ js "," ++ js " 42x"))
    !! (js "眼鏡" ++ [0x09] ++ js "め,が,ね")
  = Some 42.
Proof.
  rewrite (lineStep_csv_line katakanaToHiragana emptyIndex
             (js "眼鏡") (js "メ,ガ,ネ") (js " 42x")).
  - reflexivity.
  - intros Hin. vm_compute in Hin.
    repeat (apply elem_of_cons in Hin as [Hin|Hin]; [done|]). by apply elem_of_nil in Hin.
  - intros Hin. vm_compute in Hin.
    repeat (apply elem_of_cons in Hin as [Hin|Hin]; [done|]). by apply elem_of_nil in Hin.
Defined.

Lemma lineStep_skips_witness :
  lineStep katakanaToHiragana emptyIndex (js "Word Form Rank") = emptyIndex
  /\ lineStep katakanaToHiragana emptyIndex (js "生" ++ js "," ++ js "2457") = emptyIndex.
Proof.
  assert (Hno : forall s : jsstring, forallb (fun u => negb (u =? 0x2C)) s = true -> 0x2C ∉ s).
  { intros s Hs Hin. rewrite forallb_forall in Hs.
    apply list_elem_of_In, Hs in Hin. by rewrite Z.eqb_refl in Hin. }
  destruct (lineStep_skips katakanaToHiragana emptyIndex (js "Word Form Rank") (js "2457"))
    as (_ & H1 & _); [by apply Hno..|].
  destruct (lineStep_skips katakanaToHiragana emptyIndex (js "生") (js "2457"))
    as (_ & _ & H2); [by apply Hno..|].
  by split.
Defined.

(** ** Word frequencies: the indexes *)

Lemma lowestRank_snoc (ranks : list Z) (rank : Z) :
  lowestRank (ranks ++ [rank])
  = Some (match lowestRank ranks with Some old => Z.min old rank | None => rank end).
Proof. unfold lowestRank. by rewrite foldl_snoc. Qed.

Lemma lowestRank_spec (ranks : list Z) :
  match lowestRank ranks with
  | Some m => isLowest ranks m
  | None => ranks = []
  end.
Proof.
  induction ranks as [|rank ranks IH] using rev_ind; [done|].
  rewrite lowestRank_snoc. destruct (lowestRank ranks) as [old|].
  - destruct IH as [Hin Hlow]. split.
    + apply elem_of_app. destruct (Z.min_spec old rank) as [[_ ->]|[_ ->]];
        [by left | right; by apply list_elem_of_singleton].
    + intros r [Hr|Hr%list_elem_of_singleton]%elem_of_app; [|lia].
      specialize (Hlow r Hr). lia.
  - subst ranks. split; [by apply list_elem_of_singleton|].
    by intros r ->%list_elem_of_singleton.
Qed.

Lemma isLowest_unique (ranks : list Z) (m1 m2 : Z) :
  isLowest ranks m1 -> isLowest ranks m2 -> m1 = m2.
Proof. intros [H1 L1] [H2 L2]. specialize (L1 _ H2). specialize (L2 _ H1). lia. Qed.

Lemma lowestRank_iff (ranks : list Z) (found : option Z) :
  found = lowestRank ranks ->
  (found = None <-> ranks = []) /\ (forall m, found = Some m <-> isLowest ranks m).
Proof.
  intros ->. pose proof (lowestRank_spec ranks) as H.
  destruct (lowestRank ranks) as [m|].
  - split.
    + split; [done|]. intros ->. destruct H as [Hin _]. by apply elem_of_nil in Hin.
    + intros m'. split; [by intros [= <-]|]. intros Hm'. f_equal.
      by eapply isLowest_unique.
  - split; [done|]. intros m. split; [done|]. subst ranks.
    intros [Hin _]. by apply elem_of_nil in Hin.
Qed.

Lemma setIfBetter_lookup (m : gmap (list Z) Z) (key k : jsstring) (rank : Z) :
  setIfBetter m key rank !! k
  = if decide (k = key)
    then Some (match m !! key with Some old => Z.min old rank | None => rank end)
    else m !! k.
Proof.
  unfold setIfBetter. destruct (decide (k = key)) as [->|Hne].
  - destruct (m !! key) as [old|] eqn:Hold.
    + destruct (rank <? old) eqn:Hlt.
      * apply Z.ltb_lt in Hlt. rewrite lookup_insert_eq. f_equal. lia.
      * apply Z.ltb_ge in Hlt. rewrite Hold. f_equal. lia.
    + by rewrite lookup_insert_eq.
  - destruct (m !! key) as [old|]; [destruct (rank <? old)|];
      by rewrite ?lookup_insert_ne.
Qed.

Section FrequencyIndexProperties.

Variable kanaToHiragana : jsstring -> jsstring.

Local Abbreviation step := (lineStep kanaToHiragana).
Local Abbreviation norm := kanaToHiragana.

Lemma foldl_lineStep_entries (lines : list jsstring) (index : FrequencyIndex) :
  foldl step index lines
  = indexOfEntries kanaToHiragana index (decodedEntries lines).
Proof.
  revert index. induction lines as [|line lines IH]; intros index; [done|].
  cbn [foldl]. rewrite IH, lineStep_decode. unfold decodedEntries. cbn [omap list_omap].
  by destruct (decodeLine line) as [[[w f] rank]|].
Qed.

Lemma pairRanks_snoc (key : jsstring) (entries : list (jsstring * jsstring * Z))
    (e : jsstring * jsstring * Z) :
  pairRanks norm key (entries ++ [e])
  = pairRanks norm key entries
    ++ (if decide (compositeKey (norm e.1.1) (norm e.1.2) = key) then [e.2] else []).
Proof.
  unfold pairRanks. rewrite filter_app, map_app. f_equal.
  case_decide; [by rewrite filter_cons_True | by rewrite filter_cons_False].
Qed.

Lemma singleRanks_snoc (key : jsstring) (entries : list (jsstring * jsstring * Z))
    (e : jsstring * jsstring * Z) :
  singleRanks norm key (entries ++ [e])
  = singleRanks norm key entries
    ++ (if decide (norm e.1.1 = key \/ norm e.1.2 = key) then [e.2] else []).
Proof.
  unfold singleRanks. rewrite filter_app, map_app. f_equal.
  case_decide; [by rewrite filter_cons_True | by rewrite filter_cons_False].
Qed.

Lemma indexOfEntries_pairs (entries : list (jsstring * jsstring * Z)) (key : jsstring) :
  pairs (indexOfEntries norm emptyIndex entries) !! key
  = lowestRank (pairRanks norm key entries).
Proof.
  induction entries as [|e entries IH] using rev_ind; [done|].
  unfold indexOfEntries in *. rewrite foldl_snoc, pairRanks_snoc.
  cbn [addEntry pairs]. rewrite setIfBetter_lookup.
  destruct (decide (key = compositeKey (norm e.1.1) (norm e.1.2))) as [->|Hne].
  - rewrite decide_True by done. by rewrite lowestRank_snoc, <- IH.
  - rewrite decide_False by done. by rewrite app_nil_r.
Qed.

Lemma indexOfEntries_singles (entries : list (jsstring * jsstring * Z)) (key : jsstring) :
  singles (indexOfEntries norm emptyIndex entries) !! key
  = lowestRank (singleRanks norm key entries).
Proof.
  induction entries as [|e entries IH] using rev_ind; [done|].
  unfold indexOfEntries in *. rewrite foldl_snoc, singleRanks_snoc.
  cbn [addEntry singles].
  set (index := foldl _ emptyIndex entries) in *.
  destruct (jseq (norm e.1.2) (norm e.1.1)) eqn:Hsame; cbn [negb].
  - apply jseq_eq in Hsame. rewrite setIfBetter_lookup, Hsame.
    destruct (decide (key = norm e.1.1)) as [->|Hne].
    + rewrite decide_True by (by left). by rewrite lowestRank_snoc, <- IH.
    + rewrite decide_False by (intros [?|?]; done). by rewrite app_nil_r.
  - assert (Hdiff : norm e.1.2 <> norm e.1.1).
    { intros Heq. by rewrite Heq, jseq_refl in Hsame. }
    rewrite !setIfBetter_lookup.
    destruct (decide (key = norm e.1.2)) as [->|Hne2].
    + rewrite decide_False by done. rewrite decide_True by (by right).
      by rewrite lowestRank_snoc, <- IH.
    + destruct (decide (key = norm e.1.1)) as [->|Hne1].
      * rewrite decide_True by (by left). by rewrite lowestRank_snoc, <- IH.
      * rewrite decide_False by (intros [?|?]; done). by rewrite app_nil_r.
Qed.

(** X24.  After any list of lines, the pair index holds under a composite
    key the lowest rank among the decoded lines filed under that key, and
    nothing under a key that no line has; the order of the lines does not
    matter. *)
Theorem frequency_pairs_lowest (lines : list jsstring) (key : jsstring) :
  let found := pairs (foldl step emptyIndex lines) !! key in
  let ranks := pairRanks norm key (decodedEntries lines) in
  (found = None <-> ranks = [])
  /\ forall m, found = Some m <-> isLowest ranks m.
Proof.
  cbn zeta. apply lowestRank_iff.
  by rewrite foldl_lineStep_entries, indexOfEntries_pairs.
Qed.

(** X25.  The single index holds under a key the lowest rank among the
    decoded lines whose normalized word or normalized form is that key. *)
Theorem frequency_singles_lowest (lines : list jsstring) (key : jsstring) :
  let found := singles (foldl step emptyIndex lines) !! key in
  let ranks := singleRanks norm key (decodedEntries lines) in
  (found = None <-> ranks = [])
  /\ forall m, found = Some m <-> isLowest ranks m.
Proof.
  cbn zeta. apply lowestRank_iff.
  by rewrite foldl_lineStep_entries, indexOfEntries_singles.
Qed.

(** Before the data is loaded, and after a load that failed, every
    query answers undefined. *)
Lemma getFrequencyRank_unavailable (kanjiHeadword kanaReading : option jsstring) :
  getFrequencyRank norm notLoaded kanjiHeadword kanaReading = None
  /\ getFrequencyRank norm (doLoad norm None) kanjiHeadword kanaReading = None.
Proof.
  split; [done|]. unfold getFrequencyRank, doLoad. cbn [pairMap singleMap].
  repeat (destruct (truthyOpt _)); cbn [andb]; by rewrite ?lookup_empty.
Qed.

(** X26.  After a load, a query with a headword and a reading that are not
    empty, also once normalized, answers the lowest rank among the lines of
    the file, header excluded, filed under the composite key of the query;
    a query with only one of the two answers the lowest rank among the
    lines that have it as normalized word or form. *)
Theorem getFrequencyRank_loaded (fileText kanjiHeadword kanaReading : jsstring) :
  norm kanjiHeadword <> [] -> norm kanaReading <> [] ->
  kanjiHeadword <> [] -> kanaReading <> [] ->
  let state := doLoad norm (Some fileText) in
  let entries := decodedEntries (drop 1 (split 0x0A fileText)) in
  let both := getFrequencyRank norm state (Some kanjiHeadword) (Some kanaReading) in
  let pairKeyRanks :=
    pairRanks norm (compositeKey (norm kanjiHeadword) (norm kanaReading)) entries in
  let kanjiOnly := getFrequencyRank norm state (Some kanjiHeadword) None in
  let kanaOnly := getFrequencyRank norm state None (Some kanaReading) in
  ((both = None <-> pairKeyRanks = []) /\ forall m, both = Some m <-> isLowest pairKeyRanks m)
  /\ (forall m, kanjiOnly = Some m
        <-> isLowest (singleRanks norm (norm kanjiHeadword) entries) m)
  /\ (forall m, kanaOnly = Some m
        <-> isLowest (singleRanks norm (norm kanaReading) entries) m).
Proof.
  intros Hnk Hnr Hk Hr. cbn zeta.
  unfold getFrequencyRank, doLoad. cbn [pairMap singleMap normalizeArg].
  replace (truthy kanjiHeadword) with true by (by destruct kanjiHeadword).
  replace (truthy kanaReading) with true by (by destruct kanaReading).
  cbn [truthyOpt orEmpty default].
  replace (truthy (norm kanjiHeadword)) with true by (by destruct (norm kanjiHeadword)).
  replace (truthy (norm kanaReading)) with true by (by destruct (norm kanaReading)).
  cbn [andb]. split; [|split].
  - apply lowestRank_iff.
    by rewrite foldl_lineStep_entries, indexOfEntries_pairs.
  - apply lowestRank_iff.
    by rewrite foldl_lineStep_entries, indexOfEntries_singles.
  - apply lowestRank_iff.
    by rewrite foldl_lineStep_entries, indexOfEntries_singles.
Qed.

End FrequencyIndexProperties.

Lemma getFrequencyRank_loaded_witness :
  getFrequencyRank katakanaToHiragana
    (doLoad katakanaToHiragana
       (Some (js "Word,Form,Rank" ++ newline ++ js "生,なま,2457" ++ newline
              ++ js "生,せい,3483" ++ newline ++ js "生,ナマ,99" ++ newline)))
    (Some (js "生")) (Some (js "なま"))
  = Some 99.
Proof.
  apply (proj2 (proj1 (getFrequencyRank_loaded katakanaToHiragana _
                         (js "生") (js "なま") ltac:(by vm_compute) ltac:(by vm_compute)
                         ltac:(by vm_compute) ltac:(by vm_compute)))).
  split.
  - vm_compute. apply list_elem_of_further, list_elem_of_here.
  - intros r Hr. vm_compute in Hr.
    repeat (apply elem_of_cons in Hr as [->|Hr]; [lia|]). by apply elem_of_nil in Hr.
Defined.

(** ** Results of AnkiConnect *)

Lemma checkTypes_None (type : jsstring) (i : Z) (items : list JSONValue) :
  checkTypes type i items = None <-> Forall (fun v => typeOf v = type) items.
Proof.
  revert i. induction items as [|item items IH]; intros i; cbn [checkTypes].
  - split; [constructor | done].
  - destruct (jseq (typeOf item) type) eqn:E; cbn [negb].
    + apply jseq_eq in E. rewrite IH. split.
      * by constructor.
      * by intros [_ ?]%Forall_cons.
    + split; [done|]. intros [Ht _]%Forall_cons.
      apply jseq_eq in Ht. congruence.
Qed.

(** X27.  [_normalizeArray] succeeds exactly on an array of the expected
    size (any size when the expected count is negative) whose elements all
    have the expected type, and then returns that array unchanged. *)
Theorem normalizeArray_ok (result : JSONValue) (expectedCount : Z)
    (type : jsstring) (items : list JSONValue) :
  _normalizeArray result expectedCount type = Value items
  <-> result = JArray items
      /\ (expectedCount < 0 \/ expectedCount = Z.of_nat (length items))
      /\ Forall (fun v => typeOf v = type) items.
Proof.
  unfold _normalizeArray. split.
  - destruct result as [| | | | |items'|]; try done.
    destruct ((0 <=? expectedCount) && _) eqn:Hcount; [done|].
    destruct (checkTypes type 0 items') as [message|] eqn:Hcheck; [done|].
    intros [= <-]. split; [done|]. split; [|by apply (checkTypes_None type 0)].
    apply andb_false_iff in Hcount as [H|H].
    + left. apply Z.leb_gt in H. lia.
    + right. apply negb_false_iff, Z.eqb_eq in H. done.
  - intros (-> & Hcount & Htypes).
    replace ((0 <=? expectedCount) && _) with false.
    + by rewrite (proj2 (checkTypes_None type 0 items) Htypes).
    + symmetry. apply andb_false_iff. destruct Hcount as [H|H].
      * left. apply Z.leb_gt. lia.
      * right. apply negb_false_iff, Z.eqb_eq. done.
Qed.

Lemma normalizeArray_ok_witness :
  _normalizeArray (JArray [JString (js "Default"); JString (js "日本語")]) (-1)
    (js "string")
  = Value [JString (js "Default"); JString (js "日本語")].
Proof.
  apply normalizeArray_ok. split; [done|]. split; [left; lia|].
  repeat constructor.
Defined.

Lemma checkTypes_first (type : jsstring) (i : Z) (items : list JSONValue)
    (k : nat) (item : JSONValue) :
  items !! k = Some item -> typeOf item <> type ->
  (forall j v, (j < k)%nat -> items !! j = Some v -> typeOf v = type) ->
  checkTypes type i items
  = Some (js "Unexpected result type at index " ++ String_of_Z (i + Z.of_nat k)
          ++ js ": expected " ++ type ++ js ", received " ++ typeOf item).
Proof.
  revert i k. induction items as [|v items IH]; intros i k Hk Hbad Hgood; [done|].
  cbn [checkTypes]. destruct k as [|k].
  - injection Hk as ->.
    replace (jseq (typeOf item) type) with false
      by (symmetry; apply not_true_iff_false; by rewrite jseq_eq).
    cbn [negb]. by rewrite Z.add_0_r.
  - rewrite (proj2 (jseq_eq _ _) (Hgood 0%nat v ltac:(lia) eq_refl)). cbn [negb].
    rewrite (IH (i + 1) k Hk Hbad).
    + by replace (i + 1 + Z.of_nat k) with (i + Z.of_nat (S k)) by lia.
    + intros j w Hj Hw. apply (Hgood (S j) w); [lia | done].
Qed.

(** X28.  When an array of the right size holds an element of another
    type, [_normalizeArray] throws the error of the first such element: the
    message gives its index, the expected type and its own type. *)
Theorem normalizeArray_first_mismatch (items : list JSONValue) (expectedCount : Z)
    (type : jsstring) (k : nat) (item : JSONValue) :
  expectedCount < 0 \/ expectedCount = Z.of_nat (length items) ->
  items !! k = Some item -> typeOf item <> type ->
  (forall j v, (j < k)%nat -> items !! j = Some v -> typeOf v = type) ->
  _normalizeArray (JArray items) expectedCount type
  = Error (js "Unexpected result type at index " ++ String_of_Z (Z.of_nat k)
           ++ js ": expected " ++ type ++ js ", received " ++ typeOf item).
Proof.
  intros Hcount Hk Hbad Hgood. unfold _normalizeArray.
  replace ((0 <=? expectedCount) && _) with false.
  - by rewrite (checkTypes_first type 0 items k item Hk Hbad Hgood).
  - symmetry. apply andb_false_iff. destruct Hcount as [H|H].
    + left. apply Z.leb_gt. lia.
    + right. apply negb_false_iff, Z.eqb_eq. done.
Qed.

Lemma normalizeArray_first_mismatch_witness :
  _normalizeArray (JArray [JNumber 7; JNull; JString (js "x")]) 3 (js "number")
  = Error (js "Unexpected result type at index 1: expected number, received object").
Proof.
  apply (normalizeArray_first_mismatch [JNumber 7; JNull; JString (js "x")] 3
           (js "number") 1 JNull).
  - right. reflexivity.
  - reflexivity.
  - by vm_compute.
  - intros [|j] v Hj Hv; [by injection Hv as <- | lia].
Defined.

Lemma cardInfoLoop_spec (items : list JSONValue) (i : Z)
    (output out : list (option CardInfo)) :
  cardInfoLoop i items output = Value out
  <-> Forall (fun item => notAnObject item = false) items
      /\ out = output ++ map cardInfoOf items.
Proof.
  revert i output. induction items as [|item items IH]; intros i output; cbn [cardInfoLoop].
  - rewrite app_nil_r. split; [intros [= <-]; by split | by intros [_ ->]].
  - destruct (notAnObject item) eqn:Hobj.
    + split; [done|]. intros [[Hfalse _]%Forall_cons _]. congruence.
    + rewrite IH. cbn [map]. rewrite <- app_assoc. cbn [app]. split.
      * intros [Hall ->]. split; [by constructor | done].
      * intros [[_ Hall]%Forall_cons ->]. by split.
Qed.

(** X29.  [_normalizeCardInfoArray] succeeds exactly on an array whose
    elements are all objects, and then converts it element by element,
    keeping length and order; an element without a numeric [cardId] and
    a numeric [note] becomes [null], and [flags] and [queue] that are not
    numbers become 0. *)
Theorem normalizeCardInfoArray_spec (result : JSONValue)
    (out : list (option CardInfo)) :
  (_normalizeCardInfoArray result = Value out
   <-> exists items, result = JArray items
         /\ Forall (fun item => notAnObject item = false) items
         /\ out = map cardInfoOf items)
  /\ forall item,
       (cardInfoOf item = None
        <-> ~ exists cardId note,
              getProp item (js "cardId") = JNumber cardId
              /\ getProp item (js "note") = JNumber note)
       /\ forall info, cardInfoOf item = Some info ->
            getProp item (js "cardId") = JNumber (ci_cardId info)
            /\ getProp item (js "note") = JNumber (ci_noteId info)
            /\ ci_flags info = numberOr0 (getProp item (js "flags"))
            /\ ci_cardState info = numberOr0 (getProp item (js "queue")).
Proof.
  split.
  - unfold _normalizeCardInfoArray. split.
    + destruct result as [| | | | |items|]; try done.
      intros [Hall ->]%cardInfoLoop_spec. by exists items.
    + intros (items & -> & Hall & ->). by apply cardInfoLoop_spec.
  - intros item. unfold cardInfoOf. split.
    + destruct (getProp item (js "cardId")) as [| | |cardId| | |];
        try (split; [intros _ (c & n & Hc & _); done | done]).
      destruct (getProp item (js "note")) as [| | |note| | |];
        try (split; [intros _ (c & n & _ & Hn); done | done]).
      split; [done|]. intros Hno. exfalso. apply Hno. by exists cardId, note.
    + intros info.
      destruct (getProp item (js "cardId")) as [| | |cardId| | |]; try done.
      destruct (getProp item (js "note")) as [| | |note| | |]; try done.
      by intros [= <-].
Qed.

Lemma canAddLoop_spec (items : list JSONValue) (i : Z)
    (output out : list CanAddNoteDetail) :
  canAddLoop i items output = Value out ->
  exists details,
    out = output ++ details /\ length details = length items
    /\ forall k item, items !! k = Some item ->
         exists detail,
           details !! k = Some detail
           /\ getProp item (js "canAdd") = JBool (canAdd detail)
           /\ error detail = match getProp item (js "error") with
                             | JString message => Some message
                             | _ => None
                             end.
Proof.
  revert i output. induction items as [|item items IH]; intros i output; cbn [canAddLoop].
  - intros [= <-]. exists []. by rewrite app_nil_r.
  - destruct (notAnObject item); [done|].
    destruct (getProp item (js "canAdd")) as [| |flag| | | |] eqn:Hflag; try done.
    intros (details & -> & Hlen & Hitems)%IH.
    eexists (_ :: details). rewrite <- app_assoc. split; [done|].
    split; [simpl; by rewrite Hlen|].
    intros [|k] item' Hk.
    + injection Hk as <-. eexists. split; [done|]. by rewrite Hflag.
    + by apply Hitems.
Qed.

(** X30.  When [_normalizeCanAddNotesWithErrorDetailArray] succeeds, the
    result was an array of exactly the expected size, and the output has
    one detail per element in the same order, with the element's boolean
    [canAdd] and its [error] when that is a string, [null] otherwise. *)
Theorem normalizeCanAddNotes_spec (result : JSONValue) (expectedCount : Z)
    (out : list CanAddNoteDetail) :
  _normalizeCanAddNotesWithErrorDetailArray result expectedCount = Value out ->
  exists items,
    result = JArray items
    /\ expectedCount = Z.of_nat (length items)
    /\ length out = length items
    /\ forall k item, items !! k = Some item ->
         exists detail,
           out !! k = Some detail
           /\ getProp item (js "canAdd") = JBool (canAdd detail)
           /\ error detail = match getProp item (js "error") with
                             | JString message => Some message
                             | _ => None
                             end.
Proof.
  unfold _normalizeCanAddNotesWithErrorDetailArray.
  destruct result as [| | | | |items|]; try done.
  destruct (expectedCount =? Z.of_nat (length items)) eqn:Hcount; [|done].
  apply Z.eqb_eq in Hcount. cbn [negb].
  rewrite Hcount, Nat2Z.id, firstn_all.
  intros (details & -> & Hlen & Hitems)%canAddLoop_spec.
  exists items. by repeat split.
Qed.

Lemma normalizeCanAddNotes_spec_witness :
  exists items,
    JArray [JObject [(js "canAdd", JBool false); (js "error", JString (js "duplicate"))]]
    = JArray items
    /\ 1 = Z.of_nat (length items)
    /\ length [{| canAdd := false; error := Some (js "duplicate") |}] = length items
    /\ forall k item, items !! k = Some item ->
         exists detail,
           [{| canAdd := false; error := Some (js "duplicate") |}] !! k = Some detail
           /\ getProp item (js "canAdd") = JBool (canAdd detail)
           /\ error detail = match getProp item (js "error") with
                             | JString message => Some message
                             | _ => None
                             end.
Proof.
  apply (normalizeCanAddNotes_spec
           (JArray [JObject [(js "canAdd", JBool false);
                             (js "error", JString (js "duplicate"))]]) 1).
  reflexivity.
Defined.
